(** * jsxlate: sanitising, reconstituting and translating JSX messages

    A shallow embedding of [jsx-translator.js].  The program works on
    syntax trees held in Immutable.js collections ([I.fromJS] of the
    parser's output), so the embedding has three layers:

    - the tree values and the Immutable.js operations the program calls
      on them ([get], [getIn], [set], [setIn], [updateIn], ...);
    - the program's own functions, one definition per source function,
      under the source's names;
    - the properties of the program.

    The parser (esprima-fb), the printer (escodegen), [JSON.stringify],
    the [toString] of an Immutable collection and the [stack] of a native
    error are outside the repository: they are variables of the section
    that holds the program.

    Conventions of the model.
    - A thrown value is either an Immutable map (what [new InputError(..)]
      evaluates to) or a native error; every function that can throw
      returns a [result].
    - An Immutable [Map] is the list of its entries in the order in which
      Immutable iterates them: insertion order for maps of up to eight
      entries, the order of the hash trie beyond ([fromJS_order]).  [set]
      keeps the place of a key that is set already and puts a new key
      last, which is what Immutable does while the map has at most eight
      entries.  A [List] is a list.  Keys of tree nodes are strings, list
      positions are numbers; a key of the wrong sort finds nothing.
    - Where the parser always yields an array ([children], [attributes],
      [arguments]) the model works on [VList]; [undefined] and the other
      non-collections raise the [TypeError] JavaScript raises there.
    - The plain JavaScript objects indexed by a name taken from the input
      ([translations], [allowedAttributesByComponentName]) are finite maps
      over their own properties, looked up with [property_of], which finds
      the properties inherited from [Object.prototype] as well.  The
      dispatch tables are indexed by the type of a node; they are finite
      maps over their own properties.
    - [===] on primitives, and [I.is] on the values it is applied to, are
      structural equality. *)

From stdpp Require Import gmap strings list sorting.
From Stdlib Require Import ZArith DecimalString.

(** ** Tree values *)

Inductive key :=
| KStr (s : string)
| KIdx (n : nat).

Global Instance key_eq_dec : EqDecision key.
Proof. solve_decision. Defined.

Unset Elimination Schemes.
Inductive value :=
| VUndef
| VNull
| VBool (b : bool)
| VNum (n : Z)
| VStr (s : string)
| VList (l : list value)
| VMap (m : list (key * value)).
Set Elimination Schemes.

Definition Keypath := list key.

Section ValueInd.
Variable P : value -> Prop.
Hypothesis Hundef : P VUndef.
Hypothesis Hnull : P VNull.
Hypothesis Hbool : forall b, P (VBool b).
Hypothesis Hnum : forall n, P (VNum n).
Hypothesis Hstr : forall s, P (VStr s).
Hypothesis Hlist : forall l, Forall P l -> P (VList l).
Hypothesis Hmap : forall m, Forall (fun e => P (snd e)) m -> P (VMap m).

Fixpoint value_ind (v : value) : P v :=
    match v with
    | VUndef => Hundef
    | VNull => Hnull
    | VBool b => Hbool b
    | VNum n => Hnum n
    | VStr s => Hstr s
    | VList l =>
        Hlist l ((fix all (l : list value) : Forall P l :=
                    match l with
                    | [] => Forall_nil_2 P
                    | x :: r => Forall_cons_2 P x r (value_ind x) (all r)
                    end) l)
    | VMap m =>
        Hmap m ((fix all (m : list (key * value)) : Forall (fun e => P (snd e)) m :=
                   match m with
                   | [] => Forall_nil_2 _
                   | e :: r => Forall_cons_2 _ e r (value_ind (snd e)) (all r)
                   end) m)
    end.
End ValueInd.

Definition key_eqb (a b : key) : bool :=
  match a, b with
  | KStr s, KStr t => String.eqb s t
  | KIdx n, KIdx m => Nat.eqb n m
  | _, _ => false
  end.

Section ListEqb.
Context {A : Type} (eqb : A -> A -> bool).

Fixpoint list_eqb (l1 l2 : list A) : bool :=
  match l1, l2 with
  | [], [] => true
  | x :: r1, y :: r2 => eqb x y && list_eqb r1 r2
  | _, _ => false
  end.
End ListEqb.

(** Structural equality: [===] on primitives, [I.is] on collections. *)
Fixpoint value_eqb (a b : value) {struct a} : bool :=
  match a, b with
  | VUndef, VUndef => true
  | VNull, VNull => true
  | VBool x, VBool y => Bool.eqb x y
  | VNum x, VNum y => Z.eqb x y
  | VStr x, VStr y => String.eqb x y
  | VList l1, VList l2 => list_eqb value_eqb l1 l2
  | VMap m1, VMap m2 =>
      (fix go (m1 m2 : list (key * value)) : bool :=
         match m1, m2 with
         | [], [] => true
         | (k1, v1) :: r1, (k2, v2) :: r2 =>
             key_eqb k1 k2 && value_eqb v1 v2 && go r1 r2
         | _, _ => false
         end) m1 m2
  | _, _ => false
  end.

(** JavaScript truthiness. *)
Definition truthy (v : value) : bool :=
  match v with
  | VUndef | VNull => false
  | VBool b => b
  | VNum n => negb (Z.eqb n 0)
  | VStr s => negb (String.eqb s "")
  | VList _ | VMap _ => true
  end.

Definition is_collection (v : value) : bool :=
  match v with
  | VList _ | VMap _ => true
  | _ => false
  end.

Definition isMap (v : value) : bool :=
  match v with
  | VMap _ => true
  | _ => false
  end.

(** ** Thrown values and results *)

Inductive jsError :=
| TypeError
| ReferenceError
| Error (message : string).

Inductive thrown :=
| ThrowValue (v : value)
| ThrowNative (e : jsError).

Inductive result (A : Type) :=
| Ok (a : A)
| Throw (t : thrown).
Arguments Ok {A} a.
Arguments Throw {A} t.

Global Instance result_ret : MRet result := fun A a => Ok a.
Global Instance result_bind : MBind result := fun A B f r =>
  match r with
  | Ok a => f a
  | Throw t => Throw t
  end.
Global Instance result_fmap : FMap result := fun A B f r =>
  match r with
  | Ok a => Ok (f a)
  | Throw t => Throw t
  end.

Definition throwTypeError {A} : result A := Throw (ThrowNative TypeError).
Definition throwError {A} (message : string) : result A :=
  Throw (ThrowNative (Error message)).

(** ** Immutable.js operations *)

Fixpoint map_lookup (m : list (key * value)) (k : key) : option value :=
  match m with
  | [] => None
  | (k', v) :: r => if key_eqb k k' then Some v else map_lookup r k
  end.

(** [Map.set]: an existing key keeps its position, a new key goes last. *)
Fixpoint map_set (m : list (key * value)) (k : key) (v : value)
  : list (key * value) :=
  match m with
  | [] => [(k, v)]
  | (k', v') :: r =>
      if key_eqb k k' then (k', v) :: r else (k', v') :: map_set r k v
  end.

(** [List.set]: an index past the end grows the list with [undefined]. *)
Definition list_set (l : list value) (i : nat) (v : value) : list value :=
  if decide (i < length l) then <[i := v]> l
  else l ++ replicate (i - length l) VUndef ++ [v].

(** [c.get(k, NOT_SET)]: [None] stands for [NOT_SET]. *)
Definition lookup_raw (c : value) (k : key) : option value :=
  match c with
  | VMap m => map_lookup m k
  | VList l => match k with KIdx i => l !! i | KStr _ => None end
  | _ => None
  end.

(** [c.get(k)] *)
Definition get (c : value) (k : string) : result value :=
  if is_collection c then Ok (default VUndef (lookup_raw c (KStr k)))
  else throwTypeError.

Definition coll_set (c : value) (k : key) (v : value) : value :=
  match c with
  | VMap m => VMap (map_set m k v)
  | VList l => match k with KIdx i => VList (list_set l i v) | KStr _ => c end
  | _ => c
  end.

(** [c.set(k, v)] *)
Definition set (c : value) (k : string) (v : value) : result value :=
  if is_collection c then Ok (coll_set c (KStr k) v) else throwTypeError.

(** The loop of [getIn]: [nested && nested.get ? nested.get(key, NOT_SET)
    : NOT_SET], and [undefined] as soon as a key is not set. *)
Fixpoint getIn_ (nested : value) (path : Keypath) : value :=
  match path with
  | [] => nested
  | k :: rest =>
      match lookup_raw nested k with
      | Some x => getIn_ x rest
      | None => VUndef
      end
  end.

(** [c.getIn(path)] *)
Definition getIn (c : value) (path : Keypath) : result value :=
  if is_collection c then Ok (getIn_ c path) else throwTypeError.

(** [updateInDeepMap(existing, keyPath, undefined, updater)], with [None]
    for [NOT_SET]. *)
Fixpoint updateInDeepMap (updater : value -> result value)
    (existing : option value) (path : Keypath) : result (option value) :=
  match path with
  | [] =>
      newValue ← updater (default VUndef existing);
      match existing, newValue with
      | None, VUndef => Ok None
      | _, _ => Ok (Some newValue)
      end
  | k :: rest =>
      match existing with
      | None =>
          nextUpdated ← updateInDeepMap updater None rest;
          match nextUpdated with
          | None => Ok None
          | Some u => Ok (Some (VMap (map_set [] k u)))
          end
      | Some e =>
          if is_collection e then
            nextUpdated ← updateInDeepMap updater (lookup_raw e k) rest;
            match nextUpdated with
            | None => Ok (Some e)
            | Some u => Ok (Some (coll_set e k u))
            end
          else throwError "invalid keyPath"
      end
  end.

(** [c.updateIn(path, updater)] *)
Definition updateIn (c : value) (path : Keypath)
    (updater : value -> result value) : result value :=
  if is_collection c then
    default VUndef <$> updateInDeepMap updater (Some c) path
  else throwTypeError.

(** [c.setIn(path, v)] *)
Definition setIn (c : value) (path : Keypath) (v : value) : result value :=
  updateIn c path (fun _ => Ok v).

(** [c.update(k, updater)] *)
Definition update (c : value) (k : string)
    (updater : value -> result value) : result value :=
  updateIn c [KStr k] updater.

(** ** Monadic list helpers

    [List.filter], [List.some] and [forEach] of Immutable with a callback
    that can throw: the first exception ends the iteration. *)

Section ResultLists.
Context {A : Type}.

Fixpoint filterM (f : A -> result bool) (l : list A) : result (list A) :=
  match l with
  | [] => Ok []
  | x :: r =>
      b ← f x;
      r' ← filterM f r;
      Ok (if (b : bool) then x :: r' else r')
  end.

(** [some] stops at the first element the predicate accepts. *)
Fixpoint someM (f : A -> result bool) (l : list A) : result bool :=
  match l with
  | [] => Ok false
  | x :: r =>
      b ← f x;
      if (b : bool) then Ok true else someM f r
  end.

Section ForEach.
Context {B : Type} (f : A -> result B).

Fixpoint forEachM (l : list A) : result unit :=
  match l with
  | [] => Ok tt
  | x :: r => f x ≫= fun _ => forEachM r
  end.

Fixpoint flatMapM {C : Type} (g : B -> list C) (l : list A) : result (list C) :=
  match l with
  | [] => Ok []
  | x :: r =>
      y ← f x;
      ys ← flatMapM g r;
      Ok (g y ++ ys)
  end.
End ForEach.
End ResultLists.

(** ** Tree matcher *)

(** The field [k] of a node, [undefined] when it is not set. *)
Definition field (m : list (key * value)) (k : string) : value :=
  default VUndef (map_lookup m (KStr k)).

(** [f] applied to the field [k] of a node, [d] when it is not set.  The
    recursive functions below reach a node's children through it. *)
Section WithField.
Context {A : Type} (f : value -> A) (d : A) (k : string).

Fixpoint with_field (m : list (key * value)) : A :=
  match m with
  | [] => d
  | (k', v) :: r => if key_eqb (KStr k) k' then f v else with_field r
  end.
End WithField.

Unset Elimination Schemes.
Inductive pattern :=
| PLit (v : value)
| PPred (p : value -> bool)
| PMap (fields : list (string * pattern)).
Set Elimination Schemes.

Fixpoint matches (ast : value) (pat : pattern) : bool :=
  match pat with
  | PMap fields =>
      match ast with
      | VMap m =>
          (fix every (fields : list (string * pattern)) : bool :=
             match fields with
             | [] => true
             | (k, v) :: r => matches (field m k) v && every r
             end) fields
      | _ => false
      end
  | PPred p => p ast
  | PLit v => value_eqb v ast
  end.

Definition matcher (pat : pattern) : value -> bool :=
  fun value => matches value pat.

Definition isString (thing : value) : bool :=
  match thing with
  | VStr _ => true
  | _ => false
  end.

Definition isStringMarker : value -> bool :=
  matcher (PMap [("type", PLit (VStr "CallExpression"));
                 ("callee", PMap [("type", PLit (VStr "Identifier"));
                                  ("name", PLit (VStr "i18n"))])]).

Definition isElementMarker : value -> bool :=
  matcher (PMap [("type", PLit (VStr "XJSElement"));
                 ("openingElement",
                   PMap [("type", PLit (VStr "XJSOpeningElement"));
                         ("selfClosing", PLit (VBool false));
                         ("name", PMap [("type", PLit (VStr "XJSIdentifier"));
                                        ("name", PLit (VStr "I18N"))])])]).

Definition isMarker (ast : value) : bool :=
  isStringMarker ast || isElementMarker ast.

Definition isStringLiteral : value -> bool :=
  matcher (PMap [("type", PLit (VStr "Literal")); ("value", PPred isString)]).

Definition isJsxElement : value -> bool :=
  matcher (PMap [("type", PLit (VStr "XJSElement"))]).

Definition isIdentifier : value -> bool :=
  matcher (PMap [("type", PLit (VStr "Identifier"))]).

(** [isSimpleMemberExpression] calls itself on the [object] field through
    the predicate of its pattern; the recursion is on the tree. *)
Fixpoint isSimpleMemberExpression (ast : value) : bool :=
  match ast with
  | VMap m =>
      value_eqb (VStr "MemberExpression") (field m "type")
      && value_eqb (VBool false) (field m "computed")
      && with_field (fun o => isIdentifier o || isSimpleMemberExpression o)
           false "object" m
      && isIdentifier (field m "property")
  | _ => false
  end.

Definition isNamedExpression (ast : value) : bool :=
  isIdentifier ast || isSimpleMemberExpression ast.

(** The pattern of the source, with the function above in its predicate. *)
Definition simpleMemberExpressionPattern : pattern :=
  PMap [("type", PLit (VStr "MemberExpression"));
        ("computed", PLit (VBool false));
        ("object", PPred (fun ast => isIdentifier ast || isSimpleMemberExpression ast));
        ("property", PPred isIdentifier)].

(** ** Finding keypaths *)

(** The inner function [f] of [allKeypathsInAst]; the list it returns is
    what [f] pushes on [keypaths], in order. *)
Fixpoint f_keypaths (node : value) (keypath : Keypath) : list Keypath :=
  match node with
  | VList l =>
      (fix each (l : list value) (i : nat) : list Keypath :=
         match l with
         | [] => []
         | child :: r =>
             let childKeypath := keypath ++ [KIdx i] in
             childKeypath :: f_keypaths child childKeypath ++ each r (S i)
         end) l 0
  | VMap m =>
      (fix each (m : list (key * value)) : list Keypath :=
         match m with
         | [] => []
         | (k, child) :: r =>
             let childKeypath := keypath ++ [k] in
             childKeypath :: f_keypaths child childKeypath ++ each r
         end) m
  | _ => []
  end.

Definition allKeypathsInAst (ast : value) : result (list Keypath) :=
  if is_collection ast then Ok (f_keypaths ast []) else throwTypeError.

(** ** The order of the entries of a map

    [I.fromJS] makes a [Map] of an object by setting its properties one
    after the other.  Immutable keeps a map of up to eight entries as an
    array, in insertion order; from the ninth entry on it keeps a hash
    trie, which it iterates by the hash of the keys, five bits at a time
    from the low end, keys of one hash in insertion order. *)

(** [x | 0] *)
Definition int32 (x : Z) : Z := ((x + 2 ^ 31) `mod` 2 ^ 32 - 2 ^ 31)%Z.

(** [smi]: [((i32 >>> 1) & 0x40000000) | (i32 & 0xBFFFFFFF)] *)
Definition smi (i32 : Z) : Z :=
  let u := (i32 `mod` 2 ^ 32)%Z in
  int32 (Z.lor (Z.land (Z.shiftr u 1) 1073741824) (Z.land u 3221225471)).

(** [hashString]: [hash = 31 * hash + string.charCodeAt(ii) | 0] over the
    characters, then [smi]. *)
Definition hashString (s : string) : Z :=
  smi (foldl (fun hash c => int32 (31 * hash + Z.of_nat (Ascii.nat_of_ascii c))%Z)
         0%Z (String.list_ascii_of_string s)).

(** The positions of a hash on the levels of the trie:
    [(keyHash >>> shift) & 31] for the shifts 0, 5, ..., 30. *)
Definition trie_path (keyHash : Z) : list Z :=
  let u := (keyHash `mod` 2 ^ 32)%Z in
  map (fun level => Z.land (Z.shiftr u (5 * Z.of_nat level)) 31) (seq 0 7).

Fixpoint path_ltb (p q : list Z) : bool :=
  match p, q with
  | a :: p', b :: q' => Z.ltb a b || (Z.eqb a b && path_ltb p' q')
  | _, _ => false
  end.

(** An entry put at its place among entries that are in the order of
    the trie. *)
Fixpoint trie_insert (e : string * value) (l : list (string * value))
  : list (string * value) :=
  match l with
  | [] => [e]
  | e' :: r =>
      if path_ltb (trie_path (hashString e'.1)) (trie_path (hashString e.1))
      then e' :: trie_insert e r
      else e :: l
  end.

(** The order in which Immutable iterates the map made of the properties
    of an object, given in the order of the object. *)
Definition fromJS_order (properties : list (string * value))
  : list (string * value) :=
  if Nat.leb (length properties) 8 then properties
  else foldr trie_insert [] properties.

(** [I.fromJS] of an object whose property values are converted already. *)
Definition fromJS (properties : list (string * value)) : value :=
  VMap (map (fun '(k, v) => (KStr k, v)) (fromJS_order properties)).

(** ** Utilities *)

(** The names of the properties of [Object.prototype], which every
    object literal inherits. *)
Definition Object_prototype : list string :=
  ["constructor"; "toString"; "toLocaleString"; "valueOf"; "hasOwnProperty";
   "isPrototypeOf"; "propertyIsEnumerable"; "__defineGetter__";
   "__defineSetter__"; "__lookupGetter__"; "__lookupSetter__"; "__proto__"].

(** What [table[name]] finds on an object literal. *)
Inductive property (A : Type) :=
| Own (a : A)
| Inherited (name : string)
| NotSet.
Arguments Own {A} a.
Arguments Inherited {A} name.
Arguments NotSet {A}.

Definition property_of {A} (own : gmap string A) (name : string) : property A :=
  match own !! name with
  | Some a => Own a
  | None => if bool_decide (name ∈ Object_prototype) then Inherited name else NotSet
  end.

Definition allowedAttributesByComponentName : gmap string (list string) :=
  {[ "a" := ["href"] ]}.

(** [duplicatedValues]: [seen] and [dupes] are the two arrays of the
    source; the set it returns keeps the order of [dupes]. *)
Definition duplicatedValues (xs : list value) : list value :=
  snd (foldl (fun '(seen, dupes) x =>
                if existsb (value_eqb x) seen && negb (existsb (value_eqb x) dupes)
                then (seen, dupes ++ [x])
                else (seen ++ [x], dupes))
         ([], []) xs).

Definition InputError (description : string) : value :=
  VMap [(KStr "isInputError", VBool true); (KStr "description", VStr description)].

Definition throwInputError {A} (description : string) : result A :=
  Throw (ThrowValue (InputError description)).

Definition isInputError (e : thrown) : bool :=
  match e with
  | ThrowValue (VMap m) => truthy (field m "isInputError")
  | _ => false
  end.

Definition newline : string := String (Ascii.ascii_of_nat 10) EmptyString.

(** Immutable maps keyed by tree values ([attributeMap], the definition
    map), in insertion order. *)
Definition amap := list (value * value).

Fixpoint amap_get (m : amap) (k : value) : value :=
  match m with
  | [] => VUndef
  | (k', v) :: r => if value_eqb k k' then v else amap_get r k
  end.

Fixpoint amap_set (m : amap) (k v : value) : amap :=
  match m with
  | [] => [(k, v)]
  | (k', v') :: r =>
      if value_eqb k k' then (k', v) :: r else (k', v') :: amap_set r k v
  end.

(** [m.merge(m')]: the entries of [m'] are set on [m] one after the other. *)
Definition amap_merge (m m' : amap) : amap :=
  foldl (fun acc '(k, v) => amap_set acc k v) m m'.

(** [I.Map(pairs)] *)
Definition amap_of_pairs (pairs : list (value * value)) : amap :=
  amap_merge [] pairs.

Definition attributesFromMap (attributes : amap) : value :=
  VList (map (fun '(k, v) =>
                VMap [(KStr "type", VStr "XJSAttribute");
                      (KStr "name", k);
                      (KStr "value", v)])
           attributes).

(** A callback applied to a value that has to be a [List]. *)
Definition on_list {A} (f : list value -> result A) (v : value) : result A :=
  match v with
  | VList l => f l
  | _ => throwTypeError
  end.

Definition annotateMessage {A} (messageAst : value) (r : result A) : result A :=
  match r with
  | Throw (ThrowValue e) =>
      Throw (ThrowValue (if is_collection e
                         then coll_set e (KStr "messageAst") messageAst
                         else e))
  | _ => r
  end.

(** The [catch] of [substitute]:
    [e.set ? e.set('messageAst', message).set('translationString', translation) : e] *)
Definition annotate {A} (message translation : value) (r : result A) : result A :=
  match r with
  | Throw (ThrowValue e) =>
      Throw (ThrowValue (if is_collection e
                         then coll_set (coll_set e (KStr "messageAst") message)
                                (KStr "translationString") translation
                         else e))
  | _ => r
  end.

(** ** Trees of the examples

    The trees esprima-fb returns for the sources of the examples, built
    with the node constructors below, and a small printer and parser that
    stand for escodegen and esprima on them. *)

Module Demo.

Definition dquote : string := String (Ascii.ascii_of_nat 34) EmptyString.

Definition quoted (s : string) : string := dquote +:+ s +:+ dquote.

(** [loc] of a node on one line, from column [c1] to column [c2]. *)
Definition at_ (line c1 c2 : Z) : value :=
  VMap [(KStr "start", VMap [(KStr "line", VNum line); (KStr "column", VNum c1)]);
        (KStr "end", VMap [(KStr "line", VNum line); (KStr "column", VNum c2)])].

(** [I.fromJS] of a node object: the parser sets [type], then the fields
    of the node, then [loc]. *)
Definition node (type : string) (fields : list (string * value)) (loc : value)
  : value :=
  fromJS (("type", VStr type) :: fields ++ [("loc", loc)]).

(** esprima-fb gives every identifier the two fields of a type
    annotation, [undefined] where the source has none. *)
Definition Identifier (name : string) loc : value :=
  node "Identifier"
    [("name", VStr name); ("typeAnnotation", VUndef); ("optional", VUndef)] loc.

Definition StringLiteral (text : string) loc : value :=
  node "Literal" [("value", VStr text); ("raw", VStr (quoted text))] loc.

(** Text between tags: a [Literal] whose [raw] is the text itself. *)
Definition Text (text : string) loc : value :=
  node "Literal" [("value", VStr text); ("raw", VStr text)] loc.

Definition MemberExpression (object property : value) loc : value :=
  node "MemberExpression"
    [("computed", VBool false); ("object", object); ("property", property)] loc.

Definition CallExpression (callee : value) (arguments : list value) loc : value :=
  node "CallExpression" [("callee", callee); ("arguments", VList arguments)] loc.

Definition ExpressionStatement (expression : value) loc : value :=
  node "ExpressionStatement" [("expression", expression)] loc.

Definition Program (body : list value) loc : value :=
  node "Program" [("body", VList body)] loc.

Definition XJSIdentifier (name : string) loc : value :=
  node "XJSIdentifier" [("name", VStr name)] loc.

Definition XJSNamespacedName (namespace name : string) loc : value :=
  node "XJSNamespacedName"
    [("namespace", XJSIdentifier namespace loc); ("name", XJSIdentifier name loc)] loc.

Definition XJSAttribute (name : string) (v : value) loc : value :=
  node "XJSAttribute" [("name", XJSIdentifier name loc); ("value", v)] loc.

Definition XJSExpressionContainer (expression : value) loc : value :=
  node "XJSExpressionContainer" [("expression", expression)] loc.

(** [<name attributes>children</name>] *)
Definition XJSElement (name : value) (attributes children : list value) loc
  : value :=
  node "XJSElement"
    [("openingElement",
       node "XJSOpeningElement"
         [("name", name); ("selfClosing", VBool false);
          ("attributes", VList attributes)] loc);
     ("closingElement", node "XJSClosingElement" [("name", name)] loc);
     ("children", VList children)] loc.

(** A printer for these nodes, in the manner of escodegen. *)
Fixpoint print (fuel : nat) (ast : value) : result string :=
  match fuel, ast with
  | S fuel, VMap m =>
      let sub k := print fuel (field m k) in
      let each k sep :=
        match field m k with
        | VList l => parts ← mapM (print fuel) l; Ok (String.concat sep parts)
        | _ => throwTypeError
        end in
      match field m "type" with
      | VStr "Program" => each "body" (String (Ascii.ascii_of_nat 10) EmptyString)
      | VStr "ExpressionStatement" => e ← sub "expression"; Ok (e +:+ ";")
      | VStr "CallExpression" =>
          callee ← sub "callee"; args ← each "arguments" ", ";
          Ok (callee +:+ "(" +:+ args +:+ ")")
      | VStr "Identifier" | VStr "XJSIdentifier" =>
          match field m "name" with
          | VStr s => Ok s
          | _ => throwTypeError
          end
      | VStr "Literal" =>
          match field m "raw" with
          | VStr s => Ok s
          | _ => throwTypeError
          end
      | VStr "MemberExpression" =>
          object ← sub "object"; property ← sub "property";
          Ok (object +:+ "." +:+ property)
      | VStr "XJSNamespacedName" =>
          namespace ← sub "namespace"; name ← sub "name";
          Ok (namespace +:+ ":" +:+ name)
      | VStr "XJSAttribute" =>
          name ← sub "name"; v ← sub "value"; Ok (name +:+ "=" +:+ v)
      | VStr "XJSExpressionContainer" =>
          e ← sub "expression"; Ok ("{" +:+ e +:+ "}")
      | VStr "XJSEmptyExpression" => Ok ""
      | VStr "XJSOpeningElement" =>
          name ← sub "name";
          match field m "attributes" with
          | VList l =>
              attrs ← mapM (print fuel) l;
              Ok ("<" +:+ name +:+ String.concat "" ((fun a => " " +:+ a) <$> attrs)
                  +:+ (if truthy (field m "selfClosing") then " />" else ">"))
          | _ => throwTypeError
          end
      | VStr "XJSClosingElement" => name ← sub "name"; Ok ("</" +:+ name +:+ ">")
      | VStr "XJSElement" =>
          opening ← sub "openingElement"; children ← each "children" "";
          closing ← match field m "closingElement" with
                    | VNull => Ok ""
                    | _ => sub "closingElement"
                    end;
          Ok (opening +:+ children +:+ closing)
      | _ => throwError "Unknown node type"
      end
  | _, _ => throwTypeError
  end.

Definition generate (ast : value) : result string := print 16 ast.

(** A parser that knows the sources of a table. *)
Fixpoint parse (table : list (string * value)) (src : string) : result value :=
  match table with
  | [] => throwError "Unexpected token"
  | (src', ast) :: rest => if String.eqb src src' then Ok ast else parse rest src
  end.

Definition stringify (s : string) : string := quoted s.

Definition inspect (v : value) : string := "[object Object]".

Definition stack (e : jsError) : string :=
  match e with
  | TypeError => "TypeError"
  | ReferenceError => "ReferenceError"
  | Error message => "Error: " +:+ message
  end.

(** The text of the properties of [Object.prototype], as V8 prints
    them. *)
Definition String_inherited (name : string) : string :=
  if String.eqb name "__proto__" then "[object Object]"
  else if String.eqb name "constructor" then "function Object() { [native code] }"
  else "function " +:+ name +:+ "() { [native code] }".

(** [i18n("Hello, world!")] *)
Definition hello_src : string := "i18n(" +:+ quoted "Hello, world!" +:+ ")".

Definition hello_call : value :=
  CallExpression (Identifier "i18n" (at_ 1 0 4))
    [StringLiteral "Hello, world!" (at_ 1 5 20)] (at_ 1 0 21).

Definition hello_program : value :=
  Program [ExpressionStatement hello_call (at_ 1 0 21)] (at_ 1 0 21).

(** [i18n("Hello");] and [i18n("Bye");] on two lines. *)
Definition hello_bye_src : string :=
  "i18n(" +:+ quoted "Hello" +:+ ");" +:+ String (Ascii.ascii_of_nat 10) EmptyString
  +:+ "i18n(" +:+ quoted "Bye" +:+ ");".

Definition bye_call : value :=
  CallExpression (Identifier "i18n" (at_ 2 0 4))
    [StringLiteral "Bye" (at_ 2 5 10)] (at_ 2 0 11).

Definition hello_bye_program : value :=
  Program
    [ExpressionStatement
       (CallExpression (Identifier "i18n" (at_ 1 0 4))
          [StringLiteral "Hello" (at_ 1 5 12)] (at_ 1 0 13)) (at_ 1 0 14);
     ExpressionStatement bye_call (at_ 2 0 12)]
    (at_ 1 0 12).

(** [<a href="example.com">Example</a>] *)
Definition link_plain : value :=
  XJSElement (XJSIdentifier "a" (at_ 1 1 2))
    [XJSAttribute "href" (StringLiteral "example.com" (at_ 1 8 21)) (at_ 1 3 21)]
    [Text "Example" (at_ 1 22 29)] (at_ 1 0 33).

(** [<a:my-link href="example.fr">Example</a:my-link>] *)
Definition link_translated : value :=
  XJSElement (XJSNamespacedName "a" "my-link" (at_ 1 1 10))
    [XJSAttribute "href" (StringLiteral "example.fr" (at_ 1 16 28)) (at_ 1 11 28)]
    [Text "Example" (at_ 1 29 36)] (at_ 1 0 48).

(** [<a i18n-designation="my-link" href="example.fr">Example</a>] *)
Definition link_attribute_form : value :=
  XJSElement (XJSIdentifier "a" (at_ 1 1 2))
    [XJSAttribute "i18n-designation" (StringLiteral "my-link" (at_ 1 20 29))
       (at_ 1 3 29);
     XJSAttribute "href" (StringLiteral "example.fr" (at_ 1 35 47)) (at_ 1 30 47)]
    [Text "Example" (at_ 1 48 55)] (at_ 1 0 59).



(** [{f()}] *)
Definition call_src : string := "f()".

Definition f_call : value :=
  CallExpression (Identifier "f" (at_ 1 0 1)) [] (at_ 1 0 3).

Definition call_program : value :=
  Program [ExpressionStatement f_call (at_ 1 0 3)] (at_ 1 0 3).

Definition call_container : value :=
  XJSExpressionContainer
    (CallExpression (Identifier "f" (at_ 1 7 8)) [] (at_ 1 7 10)) (at_ 1 6 11).

Definition I18N (children : list value) loc : value :=
  XJSElement (XJSIdentifier "I18N" loc) [] children loc.

(** [<I18N>{f()}</I18N>] *)
Definition unnamed_src : string := "<I18N>{f()}</I18N>".

Definition unnamed_message : value := I18N [call_container] (at_ 1 0 18).

Definition unnamed_program : value :=
  Program [ExpressionStatement unnamed_message (at_ 1 0 18)] (at_ 1 0 18).

(** [<I18N>{name} and {name}</I18N>] *)
Definition twice_message : value :=
  I18N [XJSExpressionContainer (Identifier "name" (at_ 1 7 11)) (at_ 1 6 12);
        Text " and " (at_ 1 12 17);
        XJSExpressionContainer (Identifier "name" (at_ 1 18 22)) (at_ 1 17 23)]
    (at_ 1 0 30).

Definition sources : list (string * value) :=
  [(hello_src, hello_program); (hello_bye_src, hello_bye_program);
   (call_src, call_program); (unnamed_src, unnamed_program)].

Definition esprima : string -> result value := parse sources.

(** The input error of a rejected translation of [hello_call]. *)
Definition rejected : list (key * value) :=
  [(KStr "isInputError", VBool true);
   (KStr "description", VStr "Translation includes unsafe attribute");
   (KStr "messageAst", hello_call);
   (KStr "translationString", VStr "Bonjour")].

End Demo.

(** Further trees of the examples. *)
Module Cases.

(** ["Bonjour, monde!"], as [JSON.stringify] quotes the translation. *)
Definition bonjour_src : string := Demo.quoted "Bonjour, monde!".

Definition bonjour_literal : value :=
  Demo.StringLiteral "Bonjour, monde!" (Demo.at_ 1 0 17).

Definition bonjour_program : value :=
  Demo.Program [Demo.ExpressionStatement bonjour_literal (Demo.at_ 1 0 17)]
    (Demo.at_ 1 0 17).

(** [name] as a source of its own. *)
Definition name_program : value :=
  Demo.Program
    [Demo.ExpressionStatement (Demo.Identifier "name" (Demo.at_ 1 0 4))
       (Demo.at_ 1 0 4)]
    (Demo.at_ 1 0 4).

(** A parser that knows the source, the quoted translation and the
    placeholder. *)
Definition esprima : string -> result value :=
  Demo.parse [(Demo.hello_src, Demo.hello_program); (bonjour_src, bonjour_program);
              ("name", name_program)].



Definition french : gmap string string :=
  {[ "Hello, world!" := "Bonjour, monde!" ]}.


(** [<I18N><I18N>Hi</I18N></I18N>] *)
Definition nested_markers : value :=
  Demo.I18N [Demo.I18N [Demo.Text "Hi" (Demo.at_ 1 12 14)] (Demo.at_ 1 6 21)]
    (Demo.at_ 1 0 28).

End Cases.

(** ** The program *)

Section Translator.

(** [escodegen.generate] on the tree converted back to plain objects. *)
Variable escodegen_generate : value -> result string.
(** [I.fromJS(esprima.parse(src, {loc: true}))] *)
Variable esprima_parse : string -> result value.
Variable JSON_stringify : string -> string.
(** [toString] of an Immutable collection. *)
Variable inspect : value -> string.
(** The [stack] property of a native error. *)
Variable stack : jsError -> string.
(** [String(Object.prototype[name])], the text of a built-in function. *)
Variable String_inherited : string -> string.

(** String conversion, as [+] and property access apply it. *)
Definition ToString (v : value) : string :=
  match v with
  | VUndef => "undefined"
  | VNull => "null"
  | VBool true => "true"
  | VBool false => "false"
  | VNum n => NilZero.string_of_int (Z.to_int n)
  | VStr s => s
  | VList _ | VMap _ => inspect v
  end.

(** [list.join(separator)] of Immutable: [null] and [undefined] print as
    the empty string. *)
Definition join_item (v : value) : string :=
  match v with
  | VUndef | VNull => ""
  | _ => ToString v
  end.

Fixpoint join (separator : string) (l : list value) : string :=
  match l with
  | [] => ""
  | [v] => join_item v
  | v :: r => join_item v +:+ separator +:+ join separator r
  end.

(** *** AST utilities *)

Definition parse (src : string) : result value := esprima_parse src.

Definition parseFragment (src : string) : result value :=
  ast ← parse src;
  getIn ast [KStr "body"; KIdx 0; KStr "expression"].

Definition generate (ast : value) : result string :=
  if is_collection ast then escodegen_generate ast else throwTypeError.

Definition generateOpening (jsxExpressionAst : value) : result string :=
  get jsxExpressionAst "openingElement" ≫= generate.

Definition makeLiteralExpressionAst (text : string) : result value :=
  parseFragment text.

Definition attributes (jsxElementAst : value) : result value :=
  getIn jsxElementAst [KStr "openingElement"; KStr "attributes"].

Definition updateAttributes (jsxElementAst : value)
    (f : value -> result value) : result value :=
  updateIn jsxElementAst [KStr "openingElement"; KStr "attributes"] f.

Definition attributeName (attributeAst : value) : result value :=
  getIn attributeAst [KStr "name"; KStr "name"].

Definition attributeValue (attributeAst : value) : result value :=
  getIn attributeAst [KStr "value"; KStr "value"].

Definition attributeWithName (jsxElementAst : value) (name : string)
  : result value :=
  attrs ← attributes jsxElementAst;
  on_list (fun l =>
    filtered ← filterM (fun attrib =>
                          n ← attributeName attrib;
                          Ok (value_eqb n (VStr name))) l;
    match filtered with
    | [] => Ok VUndef
    | a :: _ => if truthy a then attributeValue a else Ok a
    end) attrs.

Definition removeAttributeWithName (jsxElementAst : value) (name : string)
  : result value :=
  updateIn jsxElementAst [KStr "openingElement"; KStr "attributes"]
    (on_list (fun l =>
       VList <$> filterM (fun attrib =>
                            n ← attributeName attrib;
                            Ok (negb (value_eqb n (VStr name)))) l)).

Definition componentNameAst (jsxElementAst : value) : result value :=
  nameAst ← getIn jsxElementAst [KStr "openingElement"; KStr "name"];
  type ← get nameAst "type";
  if value_eqb type (VStr "XJSNamespacedName") then
    get nameAst "namespace"
  else if value_eqb type (VStr "XJSIdentifier")
          || value_eqb type (VStr "XJSMemberExpression") then
    Ok nameAst
  else
    opening ← generateOpening jsxElementAst;
    throwError ("Unknown component name type " +:+ ToString type
                +:+ " for component " +:+ opening).

Definition componentName (jsxElementAst : value) : result string :=
  componentNameAst jsxElementAst ≫= generate.

Definition componentDesignation (jsxElementAst : value) : result value :=
  nameAst ← getIn jsxElementAst [KStr "openingElement"; KStr "name"];
  type ← get nameAst "type";
  if value_eqb type (VStr "XJSNamespacedName") then
    n ← get nameAst "name";
    VStr <$> generate n
  else
    attributeWithName jsxElementAst "i18n-designation".

Definition setJsxElementName (jsxElementAst nameAst : value) : result value :=
  selfClosing ← getIn jsxElementAst [KStr "openingElement"; KStr "selfClosing"];
  if truthy selfClosing then
    setIn jsxElementAst [KStr "openingElement"; KStr "name"] nameAst
  else
    renamed ← setIn jsxElementAst [KStr "openingElement"; KStr "name"] nameAst;
    setIn renamed [KStr "closingElement"; KStr "name"] nameAst.

Definition rewriteDesignationToNamespaceSyntax (jsxElementAst : value)
  : result value :=
  name ← componentName jsxElementAst;
  designation ← componentDesignation jsxElementAst;
  attribute ← attributeWithName jsxElementAst "i18n-designation";
  if truthy designation && truthy attribute then
    let namespacedName :=
      VMap [(KStr "type", VStr "XJSNamespacedName");
            (KStr "name", VMap [(KStr "type", VStr "XJSIdentifier");
                                (KStr "name", designation)]);
            (KStr "namespace", VMap [(KStr "type", VStr "XJSIdentifier");
                                     (KStr "name", VStr name)])] in
    withNamespace ← setJsxElementName jsxElementAst namespacedName;
    updateAttributes withNamespace
      (on_list (fun l =>
         VList <$> filterM (fun a =>
                              n ← attributeName a;
                              Ok (negb (value_eqb n (VStr "i18n-designation")))) l))
  else Ok jsxElementAst.

Definition removeDesignation (jsxElementAst : value) : result value :=
  nameAst ← componentNameAst jsxElementAst;
  renamed ← setJsxElementName jsxElementAst nameAst;
  removeAttributeWithName renamed "i18n-designation".

Definition attributeMap (attributes : value) : result amap :=
  on_list (fun l =>
    amap_of_pairs <$> mapM (fun a =>
                              n ← get a "name";
                              v ← get a "value";
                              Ok (n, v)) l) attributes.

(** [allowedAttributesByComponentName[componentName] || []]: an own
    property is the list of the component, no property gives the empty
    list, and an inherited property is a function (or [Object.prototype]
    itself), which is truthy and has no [indexOf], so that the call of
    [forComponent.indexOf], after its argument is evaluated, raises a
    [TypeError]. *)
Definition attributeIsSafe (componentName : string) (attributeAst : value)
  : result bool :=
  if String.eqb componentName "" then throwError "Component name missing."
  else
    match property_of allowedAttributesByComponentName componentName with
    | Inherited _ => attributeName attributeAst ≫= fun _ => throwTypeError
    | found =>
        let forComponent := match found with Own names => names | _ => [] end in
        n ← attributeName attributeAst;
        Ok (existsb (fun allowed => value_eqb n (VStr allowed)) forComponent)
    end.

Definition hasUnsafeAttributes (jsxElementAst : value) : result bool :=
  name ← componentName jsxElementAst;
  attrs ← attributes jsxElementAst;
  on_list (someM (fun a => negb <$> attributeIsSafe name a)) attrs.

Definition withSafeAttributesOnly (jsxElementAst : value) : result value :=
  name ← componentName jsxElementAst;
  updateAttributes jsxElementAst
    (on_list (fun l => VList <$> filterM (attributeIsSafe name) l)).

(** *** Named expressions, finding definitions of *)

Definition nameAndExpressionForNamedExpression (ast : value)
  : result (value * value) :=
  name ← generate ast;
  Ok (VStr name, ast).

(** [inChildren] is [ast.get('children').flatMap(_namedExpressionDefinitions)],
    handed over by the recursive function below. *)
Definition namedExpressionDefinitionsInJsxElement (ast : value)
    (inChildren : result (list (value * value))) : result (list (value * value)) :=
  attrs ← attributes ast;
  hiddenAttributes ← on_list (filterM (fun attrib =>
                                name ← componentName ast;
                                negb <$> attributeIsSafe name attrib)) attrs;
  attributeDefinition ←
    (if Nat.eqb (length hiddenAttributes) 0 then Ok []
     else
       designation ← componentDesignation ast;
       if negb (truthy designation) then
         opening ← generateOpening ast;
         throwInputError ("Element needs a designation: " +:+ opening)
       else Ok [(designation, VList hiddenAttributes)]);
  fromChildren ← inChildren;
  Ok (attributeDefinition ++ fromChildren).

Definition namedExpressionDefinitionsInJsxExpressionContainer (ast : value)
  : result (list (value * value)) :=
  expression ← get ast "expression";
  if isNamedExpression expression then
    definition ← nameAndExpressionForNamedExpression expression;
    Ok [definition]
  else Ok [].

Fixpoint _namedExpressionDefinitions (ast : value)
  : result (list (value * value)) :=
  match ast with
  | VMap m =>
      let type := field m "type" in
      if value_eqb type (VStr "XJSElement") then
        namedExpressionDefinitionsInJsxElement ast
          (with_field (on_list (flatMapM _namedExpressionDefinitions id))
             throwTypeError "children" m)
      else if value_eqb type (VStr "XJSExpressionContainer") then
        namedExpressionDefinitionsInJsxExpressionContainer ast
      else Ok []
  | VList _ => Ok []
  | _ => throwTypeError
  end.

Definition namedExpressionDefinitions (ast : value) : result amap :=
  listOfPairs ← _namedExpressionDefinitions ast;
  let names := map fst listOfPairs in
  let dupes := duplicatedValues names in
  if negb (Nat.eqb (length dupes) 0) then
    throwInputError ("Message has two named expressions with the same name: "
                     +:+ join ", " dupes)
  else Ok (amap_of_pairs listOfPairs).

(** *** Validate *)

Definition validateCallExpression (ast : value) : result unit :=
  if negb (isStringMarker ast) then
    printed ← generate ast;
    throwError ("Internal error: tried to sanitize call expression: " +:+ printed)
  else Ok tt.

Definition validateJsxExpressionContainer (ast : value) : result unit :=
  expression ← get ast "expression";
  if negb (isNamedExpression expression) then
    printed ← generate ast;
    throwInputError ("Message contains a non-named expression: " +:+ printed)
  else Ok tt.

(** [validatedChildren] is [ast.get('children').forEach(validateMessage)]. *)
Definition validateJsxElement (ast : value) (validatedChildren : result unit)
  : result unit :=
  namedExpressionDefinitions ast ≫= fun _ =>
  unsafe ← hasUnsafeAttributes ast;
  (if (unsafe : bool) then
     designation ← componentDesignation ast;
     if negb (truthy designation) then
       opening ← generateOpening ast;
       throwInputError ("Element needs a designation: " +:+ opening)
     else Ok tt
   else Ok tt) ≫= fun _ =>
  (if isElementMarker ast then
     children ← get ast "children";
     nested ← on_list (fun l => Ok (existsb isElementMarker l)) children;
     if (nested : bool) then
       printed ← generate ast;
       throwInputError ("Don't directly nest <I18N> tags: " +:+ printed)
     else Ok tt
   else Ok tt) ≫= fun _ =>
  validatedChildren.

Fixpoint validateMessage (ast : value) : result value :=
  match ast with
  | VMap m =>
      let type := field m "type" in
      (if value_eqb type (VStr "CallExpression") then
         validateCallExpression ast
       else if value_eqb type (VStr "XJSElement") then
         validateJsxElement ast
           (with_field (on_list (forEachM validateMessage))
              throwTypeError "children" m)
       else if value_eqb type (VStr "XJSExpressionContainer") then
         validateJsxExpressionContainer ast
       else Ok tt) ≫= fun _ =>
      Ok ast
  | VList _ => Ok ast
  | _ => throwTypeError
  end.

(** *** Validate translations *)

Definition validateTranslation (translation original : value) : result value :=
  namedExpressionDefinitions translation ≫= fun _ =>
  Ok translation.

(** *** Sanitize *)

(** [sanitizedChildren] is [children.map(sanitize)] on the [children] of
    the element. *)
Definition sanitizeJsxElement (ast : value) (sanitizedChildren : result value)
  : result value :=
  rewritten ← rewriteDesignationToNamespaceSyntax ast;
  safe ← withSafeAttributesOnly rewritten;
  update safe "children" (fun _ => sanitizedChildren).

Definition sanitizeJsxExpressionContainer (ast : value) : result value :=
  expression ← get ast "expression";
  '(name, _) ← nameAndExpressionForNamedExpression expression;
  literal ← makeLiteralExpressionAst (ToString name);
  set ast "expression" literal.

Fixpoint sanitize (ast : value) : result value :=
  match ast with
  | VMap m =>
      let type := field m "type" in
      if value_eqb type (VStr "Literal") then Ok ast
      else if value_eqb type (VStr "CallExpression") then Ok ast
      else if value_eqb type (VStr "XJSElement") then
        sanitizeJsxElement ast
          (with_field (on_list (fun l => VList <$> mapM sanitize l))
             throwTypeError "children" m)
      else if value_eqb type (VStr "XJSExpressionContainer") then
        sanitizeJsxExpressionContainer ast
      else if value_eqb type (VStr "XJSEmptyExpression") then Ok ast
      else throwTypeError
  | _ => throwTypeError
  end.

(** *** Reconstitute *)

(** [reconstitutedChildren] is
    [children.map(child => _reconstitute(child, definitions))]. *)
Definition reconstituteJsxElement (translatedAst : value) (definitions : amap)
    (reconstitutedChildren : result value) : result value :=
  unsafe ← hasUnsafeAttributes translatedAst;
  if (unsafe : bool) then
    opening ← generateOpening translatedAst;
    throwInputError ("Translation includes unsafe attribute: " +:+ opening)
  else
    designation ← componentDesignation translatedAst;
    result ←
      (if truthy designation then
         let originalAttributes := amap_get definitions designation in
         if negb (truthy originalAttributes) then
           throwInputError ("Translation contains designation '"
                            +:+ ToString designation
                            +:+ "', which is not in the original.")
         else
           merged ← updateAttributes translatedAst (fun translationAttributes =>
                      original ← attributeMap originalAttributes;
                      translation ← attributeMap translationAttributes;
                      Ok (attributesFromMap (amap_merge original translation)));
           removeDesignation merged
       else Ok translatedAst);
    update result "children" (fun _ => reconstitutedChildren).

Definition reconstituteJsxExpressionContainer (translatedAst : value)
    (definitions : amap) : result value :=
  expr ← get translatedAst "expression";
  if negb (isNamedExpression expr) then
    printed ← generate translatedAst;
    throwInputError ("Translated message has JSX expression that isn't a placeholder name: "
                     +:+ printed)
  else
    name ← generate expr;
    let definition := amap_get definitions (VStr name) in
    if negb (truthy definition) then
      printed ← generate translatedAst;
      throwInputError ("Translated message has a JSX expression whose name doesn't exist in the original: "
                       +:+ printed)
    else set translatedAst "expression" definition.

Fixpoint _reconstitute (translatedAst : value) (definitions : amap)
  {struct translatedAst} : result value :=
  match translatedAst with
  | VMap m =>
      let type := field m "type" in
      if value_eqb type (VStr "Identifier") then Ok translatedAst
      else if value_eqb type (VStr "Literal") then Ok translatedAst
      else if value_eqb type (VStr "XJSElement") then
        reconstituteJsxElement translatedAst definitions
          (with_field (on_list (fun l =>
                         VList <$> mapM (fun child => _reconstitute child definitions) l))
             throwTypeError "children" m)
      else if value_eqb type (VStr "XJSExpressionContainer") then
        reconstituteJsxExpressionContainer translatedAst definitions
      else if value_eqb type (VStr "XJSEmptyExpression") then Ok translatedAst
      else throwTypeError
  | _ => throwTypeError
  end.

Definition reconstitute (translatedAst originalAst : value) : result value :=
  definitions ← namedExpressionDefinitions originalAst;
  _reconstitute translatedAst definitions.

(** *** Translating *)

Definition keypathsForMessageNodesInAst (ast : value) : result (list Keypath) :=
  all ← allKeypathsInAst ast;
  let keypaths := List.filter (fun keypath => isMarker (getIn_ ast keypath)) all in
  forEachM (fun keypath =>
    messageMarker ← getIn ast keypath;
    if isStringMarker messageMarker then
      arguments ← get messageMarker "arguments";
      size ← match arguments with
             | VList l => Ok (Some (length l))
             | VMap m => Ok (Some (length m))
             | VUndef | VNull => throwTypeError
             | _ => Ok None
             end;
      (if negb (bool_decide (size = Some 1)) then
         printed ← generate messageMarker;
         throwInputError ("Message marker must have exactly one argument: " +:+ printed)
       else Ok tt) ≫= fun _ =>
      argument ← getIn messageMarker [KStr "arguments"; KIdx 0];
      if negb (isStringLiteral argument) then
        printed ← generate messageMarker;
        throwInputError ("Message should be a string literal, but was instead: " +:+ printed)
      else Ok tt
    else Ok tt) keypaths ≫= fun _ =>
  Ok keypaths.

(** *** Printing and unprinting *)

Definition generateJsxChild (ast : value) : result value :=
  if isStringLiteral ast then get ast "value"
  else VStr <$> generate ast.

Definition generateMessage (ast : value) : result value :=
  if isStringMarker ast then
    getIn ast [KStr "arguments"; KIdx 0; KStr "value"]
  else if isElementMarker ast then
    children ← get ast "children";
    on_list (fun l => parts ← mapM generateJsxChild l; Ok (VStr (join "" parts)))
      children
  else
    printed ← generate ast;
    throwError ("Internal error: message is not string literal or JSX element: "
                +:+ printed).

(** The last branch of the source prints [ast], which is not bound in
    this function. *)
Definition prepareTranslationForParsing (translationString : string)
    (originalAst : value) : result string :=
  if isStringMarker originalAst then Ok (JSON_stringify translationString)
  else if isElementMarker originalAst then
    Ok ("<I18N>" +:+ translationString +:+ "</I18N>")
  else Throw (ThrowNative ReferenceError).

(** [prepareTranslationForParsing] on a translation that is not a string
    but a property [translations] inherits from [Object.prototype]: a
    built-in function, or [Object.prototype] itself under [__proto__].
    [JSON.stringify] gives [undefined] for a function and the text of an
    empty object for [Object.prototype]; [+] converts the value to a
    string. *)
Definition prepareInheritedForParsing (name : string) (originalAst : value)
  : result value :=
  if isStringMarker originalAst then
    Ok (if String.eqb name "__proto__" then VStr "{}" else VUndef)
  else if isElementMarker originalAst then
    Ok (VStr ("<I18N>" +:+ String_inherited name +:+ "</I18N>"))
  else Throw (ThrowNative ReferenceError).

(** [substitute]: each stage is wrapped in the [catch] with the values
    [message] and [translation] hold at that point.  A property that
    [translations] inherits is truthy, so that the translation is not
    missing; esprima converts a source that is not a string with
    [String]. *)
Definition substitute (translations : gmap string string) (ast : value)
    (keypath : Keypath) : result value :=
  message ← annotate VUndef VUndef (getIn ast keypath);
  key ← annotate message VUndef (sanitize message ≫= generateMessage);
  match property_of translations (ToString key) with
  | Inherited name =>
      prepared ← prepareInheritedForParsing name message;
      annotate message prepared
        (parsed ← parseFragment (ToString prepared);
         validated ← validateTranslation parsed message;
         reconstituted ← reconstitute validated message;
         setIn ast keypath reconstituted)
  | found =>
      let translation := match found with Own s => VStr s | _ => VUndef end in
      if negb (truthy translation) then
        annotate message translation
          (key' ← sanitize message ≫= generateMessage;
           throwInputError ("Translation missing for:" +:+ newline +:+ ToString key'))
      else
        prepared ← annotate message translation
                     (prepareTranslationForParsing (ToString translation) message);
        annotate message (VStr prepared)
          (parsed ← parseFragment prepared;
           validated ← validateTranslation parsed message;
           reconstituted ← reconstitute validated message;
           setIn ast keypath reconstituted)
  end.

Definition translateMessagesInAst (ast : value)
    (translations : gmap string string) : result value :=
  keypaths ← keypathsForMessageNodesInAst ast;
  foldr (fun keypath acc => ast' ← acc; substitute translations ast' keypath)
    (Ok ast) keypaths.

(** *** Exports *)



Definition errorMessageForError (e : thrown) : result value :=
  match e with
  | ThrowValue v =>
      if isInputError e then
        messageAst ← get v "messageAst";
        translationString ← get v "translationString";
        description ← get v "description";
        if truthy messageAst && truthy translationString then
          line ← getIn messageAst [KStr "loc"; KStr "start"; KStr "line"];
          printed ← generate messageAst;
          Ok (VStr (newline +:+ "On line " +:+ ToString line
                    +:+ ", when processing the message... " +:+ newline +:+ newline
                    +:+ printed +:+ newline +:+ newline
                    +:+ "...and its associated translation... " +:+ newline +:+ newline
                    +:+ ToString translationString +:+ newline +:+ newline
                    +:+ "...the following error occured: " +:+ newline +:+ newline
                    +:+ ToString description +:+ newline))
        else if truthy messageAst then
          line ← getIn messageAst [KStr "loc"; KStr "start"; KStr "line"];
          printed ← generate messageAst;
          Ok (VStr (newline +:+ "On line " +:+ ToString line
                    +:+ ", when processing the message... " +:+ newline +:+ newline
                    +:+ printed +:+ newline +:+ newline
                    +:+ "...the following error occured: " +:+ newline +:+ newline
                    +:+ ToString description +:+ newline))
        else Ok (VStr (ToString description +:+ newline))
      else
        match v with
        | VUndef | VNull => throwTypeError
        | _ => Ok VUndef
        end
  | ThrowNative err => Ok (VStr (stack err))
  end.

(** * Notions of the statements *)

(** A keypath resolves when every key on it is set. *)
Fixpoint resolves (c : value) (path : Keypath) : Prop :=
  match path with
  | [] => True
  | k :: rest =>
      match lookup_raw c k with
      | Some x => resolves x rest
      | None => False
      end
  end.

(** The tree with the subtree at [path] replaced, for a path that resolves. *)
Fixpoint replaceIn (c : value) (path : Keypath) (u : value) : value :=
  match path with
  | [] => u
  | k :: rest =>
      match lookup_raw c k with
      | Some x => coll_set c k (replaceIn x rest u)
      | None => c
      end
  end.

(** Two keypaths diverge when they part at some key. *)
Definition diverge (p q : Keypath) : Prop :=
  exists c k1 k2 r1 r2, k1 <> k2 /\ p = c ++ k1 :: r1 /\ q = c ++ k2 :: r2.

(** The children of a node with their keys, in the order [forEach]
    visits them. *)
Definition entries (node : value) : list (key * value) :=
  match node with
  | VList l => imap (fun i child => (KIdx i, child)) l
  | VMap m => m
  | _ => []
  end.

(** What one turn of the [forEach] callback pushes. *)
Definition block (keypath : Keypath) (e : key * value) : list Keypath :=
  (keypath ++ [e.1]) :: f_keypaths e.2 (keypath ++ [e.1]).

(** No key is set twice in a map. *)
Inductive wf_value : value -> Prop :=
| wf_VUndef : wf_value VUndef
| wf_VNull : wf_value VNull
| wf_VBool b : wf_value (VBool b)
| wf_VNum n : wf_value (VNum n)
| wf_VStr s : wf_value (VStr s)
| wf_VList l : Forall wf_value l -> wf_value (VList l)
| wf_VMap m : NoDup (m.*1) -> Forall (fun e => wf_value e.2) m -> wf_value (VMap m).

Definition occurs_before (l : list Keypath) (p q : Keypath) : Prop :=
  exists l1 l2 l3, l = l1 ++ p :: l2 ++ q :: l3.

(** A keypath is at or below a node. *)
Definition below (node : value) (r : Keypath) : Prop :=
  r = [] \/ r ∈ f_keypaths node [].




(** The driver on a list of keypaths: [keypaths.reduceRight(substitute, ast)]. *)
Definition run (translations : gmap string string) (keypaths : list Keypath)
    (ast : value) : result value :=
  foldr (fun keypath acc => ast' ← acc; substitute translations ast' keypath)
    (Ok ast) keypaths.


(** [hay.includes(needle)] *)
Fixpoint includes (needle hay : string) : bool :=
  String.prefix needle hay
  || match hay with
     | EmptyString => false
     | String _ rest => includes needle rest
     end.

(** How often a name is emitted. *)
Definition occurrences (x : value) (l : list value) : nat :=
  length (List.filter (value_eqb x) l).


(** A subtree with nothing to hide: text, and elements without a
    designation whose attributes are all allow-listed. *)
Inductive plain : value -> Prop :=
| plain_Literal m :
    field m "type" = VStr "Literal" -> plain (VMap m)
| plain_XJSElement m nameAst name attrs children :
    field m "type" = VStr "XJSElement" ->
    getIn_ (VMap m) [KStr "openingElement"; KStr "name"] = nameAst ->
    (getIn_ nameAst [KStr "type"] = VStr "XJSIdentifier"
     \/ getIn_ nameAst [KStr "type"] = VStr "XJSMemberExpression") ->
    generate nameAst = Ok name ->
    getIn_ (VMap m) [KStr "openingElement"; KStr "attributes"] = VList attrs ->
    Forall (fun a => attributeIsSafe name a = Ok true) attrs ->
    field m "children" = VList children ->
    Forall plain children ->
    plain (VMap m).

Fixpoint divergeb (p q : Keypath) : bool :=
  match p, q with
  | k1 :: p', k2 :: q' => if key_eqb k1 k2 then divergeb p' q' else true
  | _, _ => false
  end.

(** The name and value nodes of a list of attributes. *)
Definition attributePairs (l : list value) : list (value * value) :=
  map (fun a => (getIn_ a [KStr "name"], getIn_ a [KStr "value"])) l.



Definition attributeNode (e : value * value) : value :=
  VMap [(KStr "type", VStr "XJSAttribute"); (KStr "name", e.1); (KStr "value", e.2)].


(** The test of the allow-list on an attribute node. *)
Definition allowed (name : string) (attributeAst : value) : bool :=
  String.eqb name "a"
  && value_eqb (getIn_ attributeAst [KStr "name"; KStr "name"]) (VStr "href").

(** Every element of the subtree, as far as elements contain one
    another, has allow-listed attributes only. *)
Inductive hides : value -> Prop :=
| hides_XJSElement m children :
    field m "type" = VStr "XJSElement" ->
    hasUnsafeAttributes (VMap m) = Ok false ->
    field m "children" = VList children ->
    Forall hides children ->
    hides (VMap m)
| hides_other m :
    field m "type" <> VStr "XJSElement" -> hides (VMap m).

(** [<name:designation>] as [rewriteDesignationToNamespaceSyntax]
    builds it. *)
Definition namespacedName (designation : value) (name : string) : value :=
  VMap [(KStr "type", VStr "XJSNamespacedName");
        (KStr "name", VMap [(KStr "type", VStr "XJSIdentifier");
                            (KStr "name", designation)]);
        (KStr "namespace", VMap [(KStr "type", VStr "XJSIdentifier");
                                 (KStr "name", VStr name)])].

Definition isDesignationAttribute (attributeAst : value) : bool :=
  value_eqb (getIn_ attributeAst [KStr "name"; KStr "name"])
    (VStr "i18n-designation").

(** An identifier, or a chain of member accesses by name that starts at
    an identifier: [a], [a.b], [a.b.c]. *)
Inductive named : value -> Prop :=
| named_Identifier m :
    field m "type" = VStr "Identifier" -> named (VMap m)
| named_MemberExpression m :
    field m "type" = VStr "MemberExpression" ->
    field m "computed" = VBool false ->
    named (field m "object") ->
    getIn_ (field m "property") [KStr "type"] = VStr "Identifier" ->
    named (VMap m).



(** An expression container of a message, at any depth of nesting of
    elements through their children, that holds the named expression
    [expression], which prints as [name]. *)
Inductive placeholder (name : string) (expression : value) : value -> Prop :=
| placeholder_container m :
    field m "type" = VStr "XJSExpressionContainer" ->
    field m "expression" = expression ->
    isNamedExpression expression = true ->
    generate expression = Ok name ->
    placeholder name expression (VMap m)
| placeholder_child m children child :
    field m "type" = VStr "XJSElement" ->
    field m "children" = VList children ->
    child ∈ children ->
    placeholder name expression child ->
    placeholder name expression (VMap m).

(** The document with the literal of every keypath in the place of its
    marker, the last keypath first. *)
Definition substituted (literal : Keypath -> value) (ast : value)
    (keypaths : list Keypath) : value :=
  foldr (fun keypath acc => replaceIn acc keypath (literal keypath)) ast keypaths.

(** * Properties *)

Arguments key_eqb : simpl never.
Arguments String.eqb : simpl never.
Arguments value_eqb : simpl nomatch.

(** ** Equality tests *)

Lemma key_eqb_eq (a b : key) : key_eqb a b = true <-> a = b.
Proof.
  destruct a as [s|n], b as [t|m]; simpl; split; intros H; try discriminate.
  - apply String.eqb_eq in H. by subst.
  - inversion H. apply String.eqb_refl.
  - apply Nat.eqb_eq in H. by subst.
  - inversion H. apply Nat.eqb_refl.
Qed.

Lemma key_eqb_refl (a : key) : key_eqb a a = true.
Proof. by apply key_eqb_eq. Qed.

Lemma key_eqb_neq (a b : key) : key_eqb a b = false <-> a <> b.
Proof.
  destruct (key_eqb a b) eqn:E; split; intros H; try done.
  - apply key_eqb_eq in E. done.
  - intros ->. rewrite key_eqb_refl in E. done.
Qed.

Lemma value_eqb_eq (a b : value) : value_eqb a b = true <-> a = b.
Proof.
  revert b. induction a as [| |x|x|x|l IH|m IH] using value_ind;
    intros [| |y|y|y|l'|m']; simpl; try (split; intros; congruence).
  - rewrite Bool.eqb_true_iff. split; congruence.
  - rewrite Z.eqb_eq. split; congruence.
  - rewrite String.eqb_eq. split; congruence.
  - revert l'. induction IH as [|x l Hx _ IHl]; intros [|y l']; simpl;
      try (split; intros; congruence).
    rewrite andb_true_iff, Hx, (IHl l'). split.
    + intros [-> E]. congruence.
    + intros E. inversion E. done.
  - revert m'. induction IH as [|[k x] m Hx _ IHm]; intros [|[k' y] m']; simpl;
      try (split; intros; congruence).
    simpl in Hx. rewrite !andb_true_iff, key_eqb_eq, Hx, (IHm m'). split.
    + intros [[-> ->] E]. congruence.
    + intros E. inversion E. done.
Qed.

Lemma value_eqb_refl (a : value) : value_eqb a a = true.
Proof. by apply value_eqb_eq. Qed.

Lemma value_eqb_neq (a b : value) : value_eqb a b = false <-> a <> b.
Proof.
  destruct (value_eqb a b) eqn:E; split; intros H; try done.
  - apply value_eqb_eq in E. done.
  - intros ->. rewrite value_eqb_refl in E. done.
Qed.

(** ** Immutable.js operations *)

Lemma with_field_lookup {A} (f : value -> A) (d : A) (k : string) m :
  with_field f d k m
  = match map_lookup m (KStr k) with Some v => f v | None => d end.
Proof.
  induction m as [|[k' v] m IH]; simpl; [done|].
  destruct (key_eqb (KStr k) k'); [done|apply IH].
Qed.

(** Reading the field and applying the callback, as the source does. *)
Lemma with_field_field {A} (f : value -> A) (k : string) m :
  with_field f (f VUndef) k m = f (field m k).
Proof.
  rewrite with_field_lookup. unfold field.
  destruct (map_lookup m (KStr k)); done.
Qed.

Lemma map_lookup_set_same m k v : map_lookup (map_set m k v) k = Some v.
Proof.
  induction m as [|[k' v'] m IH]; simpl.
  - by rewrite key_eqb_refl.
  - destruct (key_eqb k k') eqn:E; simpl; rewrite E; done.
Qed.

Lemma map_lookup_set_other m k k' v :
  k <> k' -> map_lookup (map_set m k v) k' = map_lookup m k'.
Proof.
  intros Hne. induction m as [|[k0 v0] m IH]; simpl.
  - apply key_eqb_neq in Hne.
    destruct (key_eqb k' k) eqn:E; [|done].
    apply key_eqb_eq in E. subst. by rewrite key_eqb_refl in Hne.
  - destruct (key_eqb k k0) eqn:E; simpl.
    + apply key_eqb_eq in E. subst k0.
      destruct (key_eqb k' k) eqn:E'; [|done].
      apply key_eqb_eq in E'. congruence.
    + rewrite IH. done.
Qed.

Lemma map_set_same_value m k v : map_lookup m k = Some v -> map_set m k v = m.
Proof.
  induction m as [|[k' v'] m IH]; simpl; [done|].
  destruct (key_eqb k k') eqn:E.
  - intros [= ->]. done.
  - intros H. by rewrite IH.
Qed.

Lemma lookup_raw_Some_collection c k x :
  lookup_raw c k = Some x -> is_collection c = true.
Proof. destruct c; simpl; done. Qed.

Lemma lookup_raw_coll_set_same c k x v :
  lookup_raw c k = Some x -> lookup_raw (coll_set c k v) k = Some v.
Proof.
  destruct c as [| | | | |l|m]; simpl; try done.
  - destruct k as [s|i]; [done|]. simpl. intros H.
    apply lookup_lt_Some in H. unfold list_set.
    destruct (decide (i < length l)); [|lia].
    by apply list_lookup_insert_eq.
  - intros _. apply map_lookup_set_same.
Qed.

Lemma lookup_raw_coll_set_other c k k' x v :
  lookup_raw c k = Some x -> k <> k' ->
  lookup_raw (coll_set c k v) k' = lookup_raw c k'.
Proof.
  destruct c as [| | | | |l|m]; simpl; try done.
  - destruct k as [s|i]; [done|]. simpl. intros H Hne.
    destruct k' as [s|j]; [done|].
    apply lookup_lt_Some in H. unfold list_set.
    destruct (decide (i < length l)); [|lia].
    apply list_lookup_insert_ne. congruence.
  - intros _ Hne. by apply map_lookup_set_other.
Qed.

Lemma coll_set_same_value c k x : lookup_raw c k = Some x -> coll_set c k x = c.
Proof.
  destruct c as [| | | | |l|m]; simpl; try done.
  - destruct k as [s|i]; [done|]. intros H. unfold list_set.
    destruct (decide (i < length l)) as [Hlt|Hge].
    + by rewrite list_insert_id.
    + apply lookup_lt_Some in H. lia.
  - intros H. by rewrite map_set_same_value.
Qed.

Lemma getIn__app c p q : getIn_ c (p ++ q) = getIn_ (getIn_ c p) q.
Proof.
  revert c. induction p as [|k p IH]; intros c; simpl; [done|].
  destruct (lookup_raw c k); [done|].
  destruct q; done.
Qed.

Lemma resolves_app c p q : resolves c (p ++ q) <-> resolves c p /\ resolves (getIn_ c p) q.
Proof.
  revert c. induction p as [|k p IH]; intros c; simpl; [tauto|].
  destruct (lookup_raw c k); [apply IH|tauto].
Qed.

Lemma getIn__undef p : getIn_ VUndef p = VUndef.
Proof. destruct p; done. Qed.

Lemma getIn__defined_resolves c p : getIn_ c p <> VUndef -> resolves c p.
Proof.
  revert c. induction p as [|k p IH]; intros c; simpl; [done|].
  destruct (lookup_raw c k); [apply IH|done].
Qed.

Lemma updateInDeepMap_resolves updater c path u :
  resolves c path -> updater (getIn_ c path) = Ok u ->
  updateInDeepMap updater (Some c) path = Ok (Some (replaceIn c path u)).
Proof.
  revert c. induction path as [|k rest IH]; intros c; simpl.
  - intros _ ->. done.
  - destruct (lookup_raw c k) as [x|] eqn:E; [|done]. intros Hr Hu.
    rewrite (lookup_raw_Some_collection _ _ _ E).
    rewrite (IH x Hr Hu). done.
Qed.

Lemma updateIn_resolves updater c path u :
  is_collection c = true -> resolves c path -> updater (getIn_ c path) = Ok u ->
  updateIn c path updater = Ok (replaceIn c path u).
Proof.
  intros Hc Hr Hu. unfold updateIn. rewrite Hc.
  by rewrite (updateInDeepMap_resolves _ _ _ _ Hr Hu).
Qed.

Lemma updateInDeepMap_throws updater c path t :
  resolves c path -> updater (getIn_ c path) = Throw t ->
  updateInDeepMap updater (Some c) path = Throw t.
Proof.
  revert c. induction path as [|k rest IH]; intros c; simpl.
  - intros _ ->. done.
  - destruct (lookup_raw c k) as [x|] eqn:E; [|done]. intros Hr Hu.
    rewrite (lookup_raw_Some_collection _ _ _ E).
    rewrite (IH x Hr Hu). done.
Qed.

Lemma setIn_resolves c path v :
  is_collection c = true -> resolves c path -> setIn c path v = Ok (replaceIn c path v).
Proof. intros. by apply updateIn_resolves. Qed.

Lemma replaceIn_same c path : resolves c path -> replaceIn c path (getIn_ c path) = c.
Proof.
  revert c. induction path as [|k rest IH]; intros c; simpl; [done|].
  destruct (lookup_raw c k) as [x|] eqn:E; [|done]. intros Hr.
  rewrite (IH x Hr). by apply coll_set_same_value.
Qed.

Lemma getIn__replaceIn_same c path u :
  resolves c path -> getIn_ (replaceIn c path u) path = u.
Proof.
  revert c. induction path as [|k rest IH]; intros c; simpl; [done|].
  destruct (lookup_raw c k) as [x|] eqn:E; [|done]. intros Hr.
  rewrite (lookup_raw_coll_set_same _ _ _ _ E). by apply IH.
Qed.

Lemma replaceIn_collection c path u :
  path <> [] -> is_collection c = true -> is_collection (replaceIn c path u) = true.
Proof.
  destruct path as [|k rest]; [done|]. intros _ Hc. simpl.
  destruct (lookup_raw c k); [|done].
  destruct c; try done. simpl. destruct k; done.
Qed.

Lemma getIn__replaceIn_diverge c p q u :
  diverge p q -> getIn_ (replaceIn c p u) q = getIn_ c q.
Proof.
  intros (pre & k1 & k2 & r1 & r2 & Hne & -> & ->). revert c.
  induction pre as [|k pre IH]; intros c; simpl.
  - destruct (lookup_raw c k1) as [x|] eqn:E; [|done].
    by rewrite (lookup_raw_coll_set_other _ _ _ _ _ E Hne).
  - destruct (lookup_raw c k) as [x|] eqn:E; [|by rewrite E].
    rewrite (lookup_raw_coll_set_same _ _ _ _ E). apply IH.
Qed.

Lemma getIn__replaceIn_prefix c p r u :
  resolves c p -> getIn_ (replaceIn c (p ++ r) u) p = replaceIn (getIn_ c p) r u.
Proof.
  revert c. induction p as [|k p IH]; intros c; simpl; [done|].
  destruct (lookup_raw c k) as [x|] eqn:E; [|done]. intros Hr.
  rewrite (lookup_raw_coll_set_same _ _ _ _ E). by apply IH.
Qed.

Lemma diverge_sym p q : diverge p q -> diverge q p.
Proof.
  intros (c & k1 & k2 & r1 & r2 & Hne & -> & ->).
  exists c, k2, k1, r2, r1. done.
Qed.

(** Two keypaths are comparable, or they diverge. *)
Lemma prefix_or_diverge (p q : Keypath) :
  p `prefix_of` q \/ q `prefix_of` p \/ diverge p q.
Proof.
  revert q. induction p as [|k p IH]; intros q.
  - left. apply prefix_nil.
  - destruct q as [|k' q]; [right; left; apply prefix_nil|].
    destruct (decide (key_eqb k k' = true)) as [E|E].
    + apply key_eqb_eq in E. subst k'.
      destruct (IH q) as [H|[H|H]].
      * left. by apply prefix_cons.
      * right. left. by apply prefix_cons.
      * right. right. destruct H as (c & k1 & k2 & r1 & r2 & Hne & -> & ->).
        exists (k :: c), k1, k2, r1, r2. done.
    + right. right. exists [], k, k', p, q. split; [|done].
      intros ->. by rewrite key_eqb_refl in E.
Qed.

(** ** Keypaths in pre-order *)

Lemma value_entries_ind (P : value -> Prop) :
  (forall v, Forall (fun e => P e.2) (entries v) -> P v) -> forall v, P v.
Proof.
  intros H v. induction v as [| | | | |l IH|m IH] using value_ind;
    apply H; simpl; try done.
  apply Forall_forall. intros [k c] Hin.
  apply elem_of_lookup_imap in Hin as (i & x & [= -> ->] & Hx).
  rewrite Forall_forall in IH. apply IH. by eapply list_elem_of_lookup_2.
Qed.

Lemma f_keypaths_entries node keypath :
  f_keypaths node keypath = entries node ≫= block keypath.
Proof.
  destruct node as [| | | | |l|m]; simpl; try done.
  - change (imap (fun i child => (KIdx i, child)) l)
      with (imap (fun i child => (KIdx (0 + i), child)) l).
    generalize 0. induction l as [|c l IH]; intros i; [done|].
    rewrite imap_cons, bind_cons. unfold block at 1. simpl.
    rewrite Nat.add_0_r. do 2 f_equal. rewrite (IH (S i)).
    f_equal. apply imap_ext. intros j x _. simpl. do 2 f_equal. lia.
  - induction m as [|[k c] m IH]; [done|].
    rewrite bind_cons. unfold block at 1. simpl. by rewrite IH.
Qed.

Lemma f_keypaths_relative node keypath :
  f_keypaths node keypath = (keypath ++.) <$> f_keypaths node [].
Proof.
  revert keypath. induction node as [node IH] using value_entries_ind.
  intros keypath. rewrite !f_keypaths_entries.
  induction IH as [|[k c] es Hc _ IHes]; [done|].
  rewrite !bind_cons, fmap_app, IHes. f_equal.
  unfold block. simpl in *. f_equal.
  rewrite (Hc (keypath ++ [k])), (Hc [k]).
  change (list_fmap _ _ ?f ?l) with (f <$> l). rewrite <- list_fmap_compose.
  apply list_fmap_ext. intros _ p _. simpl. by rewrite <- app_assoc.
Qed.

(** The keypaths below a node: its children, each followed by what lies
    below it. *)
Lemma f_keypaths_children node :
  f_keypaths node []
  = entries node ≫= fun e => [e.1] :: ((e.1 ::.) <$> f_keypaths e.2 []).
Proof.
  rewrite f_keypaths_entries. apply list_bind_ext; [|done].
  intros [k c]. unfold block. simpl. f_equal. apply f_keypaths_relative.
Qed.

Lemma lookup_raw_entries node k c : lookup_raw node k = Some c -> (k, c) ∈ entries node.
Proof.
  destruct node as [| | | | |l|m]; simpl; try done.
  - destruct k as [s|i]; [done|]. intros H.
    by apply (elem_of_lookup_imap_2 (fun i child => (KIdx i, child))).
  - induction m as [|[k' v] m IH]; simpl; [done|].
    destruct (key_eqb k k') eqn:E.
    + apply key_eqb_eq in E. subst. intros [= ->]. left.
    + intros H. right. by apply IH.
Qed.

Lemma entries_lookup_raw node k c :
  wf_value node -> (k, c) ∈ entries node -> lookup_raw node k = Some c.
Proof.
  intros Hwf. destruct Hwf as [| | | | |l Hl|m Hnd Hm]; simpl; try (by intros ?%elem_of_nil).
  - intros Hin. by apply elem_of_lookup_imap in Hin as (i & x & [= -> ->] & Hx).
  - clear Hm. induction m as [|[k' v] m IH]; simpl; [by intros ?%elem_of_nil|].
    apply NoDup_cons in Hnd as [Hk Hnd]. intros Hin.
    apply elem_of_cons in Hin as [[= <- <-]|Hin].
    + by rewrite key_eqb_refl.
    + destruct (key_eqb k k') eqn:E; [|by apply IH].
      apply key_eqb_eq in E. subst k'. exfalso. apply Hk.
      apply list_elem_of_fmap. by exists (k, c).
Qed.

Lemma wf_value_entries node :
  wf_value node -> NoDup ((entries node).*1) /\ Forall (fun e => wf_value e.2) (entries node).
Proof.
  intros [| | | | |l Hl|m Hnd Hm]; simpl; try (split; [apply NoDup_nil_2|done]); [|done].
  split.
  - apply NoDup_alt. intros i j k. rewrite !list_lookup_fmap, !list_lookup_imap.
    destruct (l !! i), (l !! j); simpl; congruence.
  - apply Forall_forall. intros [k c] Hin.
    apply elem_of_lookup_imap in Hin as (i & x & [= -> ->] & Hx).
    rewrite Forall_forall in Hl. apply Hl. by eapply list_elem_of_lookup_2.
Qed.

(** Every keypath that resolves, the empty one apart, is enumerated. *)
Lemma f_keypaths_complete node p :
  p <> [] -> resolves node p -> p ∈ f_keypaths node [].
Proof.
  revert node. induction p as [|k p IH]; intros node Hne; [done|]. simpl.
  destruct (lookup_raw node k) as [c|] eqn:E; [|done]. intros Hr.
  rewrite f_keypaths_children. apply list_elem_of_bind.
  exists (k, c). split; [|by apply lookup_raw_entries]. simpl.
  destruct p as [|k' p]; [left|]. right.
  apply list_elem_of_fmap. exists (k' :: p). split; [done|]. by apply IH.
Qed.

Lemma f_keypaths_nonempty node : [] ∉ f_keypaths node [].
Proof.
  rewrite f_keypaths_children. intros Hin.
  apply list_elem_of_bind in Hin as ([k c] & Hin & _). simpl in Hin.
  apply elem_of_cons in Hin as [?|Hin]; [done|].
  by apply list_elem_of_fmap in Hin as (? & ? & _).
Qed.

(** Nothing else is enumerated. *)
Lemma f_keypaths_sound node p :
  wf_value node -> p ∈ f_keypaths node [] -> p <> [] /\ resolves node p.
Proof.
  revert p. induction node as [node IH] using value_entries_ind.
  intros p Hwf Hin. split; [intros ->; by eapply f_keypaths_nonempty|].
  rewrite f_keypaths_children in Hin.
  apply list_elem_of_bind in Hin as ([k c] & Hin & Hkc). simpl in Hin.
  pose proof (entries_lookup_raw _ _ _ Hwf Hkc) as Hl.
  apply elem_of_cons in Hin as [->|Hin]; [simpl; by rewrite Hl|].
  apply list_elem_of_fmap in Hin as (p' & -> & Hin). simpl. rewrite Hl.
  rewrite Forall_forall in IH. apply (IH (k, c) Hkc); [|done].
  apply wf_value_entries in Hwf as [_ Hwf].
  rewrite Forall_forall in Hwf. by apply (Hwf (k, c)).
Qed.

Lemma StronglySorted_fmap_strong {A B} (R : relation A) (R' : relation B)
    (f : A -> B) (l : list A) :
  (forall x y, R x y -> R' (f x) (f y)) ->
  StronglySorted R l -> StronglySorted R' (f <$> l).
Proof.
  intros Hf. induction 1 as [|x l _ IH Hx]; [constructor|].
  rewrite fmap_cons. constructor; [done|].
  rewrite Forall_fmap. eapply Forall_impl; [exact Hx|]. intros y. apply Hf.
Qed.

(** In the enumeration no keypath is followed by one of its prefixes:
    ancestors come first and no keypath comes twice. *)
Lemma f_keypaths_sorted node :
  wf_value node ->
  StronglySorted (fun p q => ~ q `prefix_of` p) (f_keypaths node []).
Proof.
  induction node as [node IH] using value_entries_ind. intros Hwf.
  rewrite f_keypaths_children.
  apply wf_value_entries in Hwf as [Hnd Hwf].
  induction (entries node) as [|[k c] es IHes]; [constructor|].
  rewrite fmap_cons in Hnd.
  apply NoDup_cons in Hnd as [Hk Hnd].
  apply Forall_cons in Hwf as [Hc Hwf]. apply Forall_cons in IH as [IHc IH].
  rewrite bind_cons. cbn [fst snd] in *. apply StronglySorted_app. split_and!.
  - intros x y Hx Hy Hpre.
    apply list_elem_of_bind in Hy as ([k' c'] & Hy & Hin). cbn [fst snd] in Hy.
    assert (k' <> k) as Hne.
    { intros ->. apply Hk. apply list_elem_of_fmap. by exists (k, c'). }
    assert (exists x', x = k :: x') as [x' ->].
    { apply elem_of_cons in Hx as [->|Hx]; [by eexists|].
      apply list_elem_of_fmap in Hx as (? & -> & _). by eexists. }
    assert (exists y', y = k' :: y') as [y' ->].
    { apply elem_of_cons in Hy as [->|Hy]; [by eexists|].
      apply list_elem_of_fmap in Hy as (? & -> & _). by eexists. }
    by apply prefix_cons_inv_1 in Hpre.
  - constructor.
    + apply (StronglySorted_fmap_strong (fun p q => ~ q `prefix_of` p)); [|by apply IHc].
      intros x y Hxy Hpre. apply Hxy. by apply prefix_cons_inv_2 in Hpre.
    + apply Forall_fmap, Forall_forall. intros q Hq Hpre. simpl in Hpre.
      apply prefix_cons_inv_2, prefix_nil_inv in Hpre. subst q.
      by eapply f_keypaths_nonempty.
  - by apply IHes.
Qed.

Lemma StronglySorted_NoDup {A} (R : relation A) (l : list A) :
  (forall x, ~ R x x) -> StronglySorted R l -> NoDup l.
Proof.
  intros Hirr. induction 1 as [|x l _ IH Hx]; constructor; [|done].
  intros Hin. rewrite Forall_forall in Hx. by apply (Hirr x), Hx.
Qed.

(** No keypath is enumerated twice. *)
Lemma f_keypaths_NoDup node : wf_value node -> NoDup (f_keypaths node []).
Proof.
  intros Hwf.
  apply (StronglySorted_NoDup (fun p q : Keypath => ~ q `prefix_of` p));
    [|by apply f_keypaths_sorted].
  intros x Hx. by apply Hx.
Qed.

Lemma occurs_before_app l l' l'' p q :
  occurs_before l p q -> occurs_before (l' ++ l ++ l'') p q.
Proof.
  intros (l1 & l2 & l3 & ->). exists (l' ++ l1), l2, (l3 ++ l'').
  by simplify_list_eq.
Qed.

Lemma occurs_before_fmap (f : Keypath -> Keypath) l p q :
  occurs_before l p q -> occurs_before (f <$> l) (f p) (f q).
Proof.
  intros (l1 & l2 & l3 & ->). exists (f <$> l1), (f <$> l2), (f <$> l3).
  by rewrite !fmap_app, !fmap_cons, !fmap_app, !fmap_cons.
Qed.

Lemma occurs_before_cons x l p q :
  occurs_before l p q -> occurs_before (x :: l) p q.
Proof. intros (l1 & l2 & l3 & ->). by exists (x :: l1), l2, l3. Qed.

Lemma occurs_before_head l p q : q ∈ l -> occurs_before (p :: l) p q.
Proof. intros (l1 & l2 & ->)%list_elem_of_split. by exists [], l1, l2. Qed.

Lemma occurs_before_apart l l' p q :
  p ∈ l -> q ∈ l' -> occurs_before (l ++ l') p q.
Proof.
  intros (l1 & l2 & ->)%list_elem_of_split (l3 & l4 & ->)%list_elem_of_split.
  exists l1, (l2 ++ l3), l4. by simplify_list_eq.
Qed.

Lemma lookup_split_two {A} (l : list A) a b x y :
  l !! a = Some x -> l !! b = Some y -> a < b ->
  exists l1 l2 l3, l = l1 ++ x :: l2 ++ y :: l3.
Proof.
  intros Ha Hb Hlt.
  pose proof (take_drop_middle _ _ _ Ha) as E1.
  assert (drop (S a) l !! (b - S a) = Some y) as Hb'.
  { rewrite lookup_drop. rewrite <- Hb. f_equal. lia. }
  pose proof (take_drop_middle _ _ _ Hb') as E2.
  exists (take a l), (take (b - S a) (drop (S a) l)), (drop (S (b - S a)) (drop (S a) l)).
  by rewrite E2, E1.
Qed.

(** A keypath comes before the keypaths below it. *)
Lemma f_keypaths_parent_first node p q :
  p <> [] -> p `prefix_of` q -> p <> q -> resolves node q ->
  occurs_before (f_keypaths node []) p q.
Proof.
  revert node q. induction p as [|k p IH]; intros node q Hne Hpre Hpq Hr; [done|].
  destruct q as [|k' q]; [by apply prefix_nil_inv in Hpre|].
  pose proof (prefix_cons_inv_1 _ _ _ _ Hpre) as <-.
  apply prefix_cons_inv_2 in Hpre. simpl in Hr.
  destruct (lookup_raw node k) as [c|] eqn:E; [|done].
  apply lookup_raw_entries in E. apply list_elem_of_split in E as (e1 & e2 & E).
  rewrite f_keypaths_children, E, bind_app, bind_cons. cbn [fst snd].
  apply occurs_before_app.
  assert (q <> []) as Hq.
  { intros ->. apply prefix_nil_inv in Hpre. by subst. }
  destruct p as [|k' p].
  - apply occurs_before_head, list_elem_of_fmap. exists q. split; [done|].
    by apply f_keypaths_complete.
  - apply occurs_before_cons, (occurs_before_fmap (k ::.)), IH; try done. congruence.
Qed.

(** Of two children of one node, everything at or below the one visited
    first comes before everything at or below the other. *)
Lemma f_keypaths_children_in_order node c a b k1 c1 k2 c2 r1 r2 :
  resolves node c ->
  entries (getIn_ node c) !! a = Some (k1, c1) ->
  entries (getIn_ node c) !! b = Some (k2, c2) ->
  a < b -> below c1 r1 -> below c2 r2 ->
  occurs_before (f_keypaths node []) (c ++ k1 :: r1) (c ++ k2 :: r2).
Proof.
  revert node. induction c as [|k c IH]; intros node Hr Ha Hb Hlt H1 H2; simpl in *.
  - destruct (lookup_split_two _ _ _ _ _ Ha Hb Hlt) as (e1 & e2 & e3 & E).
    rewrite f_keypaths_children, E.
    rewrite bind_app, bind_cons, bind_app, bind_cons. cbn [fst snd].
    generalize (e1 ≫= fun e => [e.1] :: ((e.1 ::.) <$> f_keypaths e.2 [])).
    generalize (e2 ≫= fun e => [e.1] :: ((e.1 ::.) <$> f_keypaths e.2 [])).
    generalize (e3 ≫= fun e => [e.1] :: ((e.1 ::.) <$> f_keypaths e.2 [])).
    intros E3 E2 E1.
    assert (k1 :: r1 ∈ [k1] :: ((k1 ::.) <$> f_keypaths c1 []))
      as (a1 & b1 & ->)%list_elem_of_split.
    { destruct H1 as [->|H1]; [left|]. right.
      apply list_elem_of_fmap. by exists r1. }
    assert (k2 :: r2 ∈ [k2] :: ((k2 ::.) <$> f_keypaths c2 []))
      as (a2 & b2 & ->)%list_elem_of_split.
    { destruct H2 as [->|H2]; [left|]. right.
      apply list_elem_of_fmap. by exists r2. }
    exists (E1 ++ a1), (b1 ++ E2 ++ a2), (b2 ++ E3).
    by simplify_list_eq.
  - destruct (lookup_raw node k) as [x|] eqn:E; [|done].
    apply lookup_raw_entries in E. apply list_elem_of_split in E as (e1 & e2 & E).
    rewrite f_keypaths_children, E, bind_app, bind_cons. cbn [fst snd].
    apply occurs_before_app, occurs_before_cons, (occurs_before_fmap (k ::.)).
    by apply IH.
Qed.

Lemma entries_VList_lookup l i x :
  l !! i = Some x -> entries (VList l) !! i = Some (KIdx i, x).
Proof. intros H. simpl. by rewrite list_lookup_imap, H. Qed.

Lemma resolves_below node r : resolves node r -> below node r.
Proof.
  intros Hr. destruct r as [|k r]; [by left|]. right.
  by apply f_keypaths_complete.
Qed.

(** C8 (amended): on every tree, [allKeypathsInAst] returns the keypath of
    every node that can be reached, the root's own (empty) keypath apart,
    in pre-order: on a tree whose maps set no key twice it returns nothing
    else and no keypath twice; a node's keypath comes before the keypaths
    of the nodes below it; the elements of an array are taken by
    ascending index and the fields of a map in the order in which the map
    iterates them, the whole subtree of one before the next. *)
Theorem allKeypathsInAst_preorder (ast : value) :
  is_collection ast = true ->
  exists keypaths,
    allKeypathsInAst ast = Ok keypaths
    /\ (forall p, p <> [] -> resolves ast p -> p ∈ keypaths)
    /\ ([] ∉ keypaths)
    /\ (wf_value ast -> forall p, p ∈ keypaths -> resolves ast p)
    /\ (wf_value ast -> NoDup keypaths)
    /\ (forall p q, p <> [] -> p `prefix_of` q -> p <> q -> resolves ast q ->
        occurs_before keypaths p q)
    /\ (forall c l i j x y r1 r2,
          resolves ast c -> getIn_ ast c = VList l ->
          l !! i = Some x -> l !! j = Some y -> i < j ->
          resolves x r1 -> resolves y r2 ->
          occurs_before keypaths (c ++ KIdx i :: r1) (c ++ KIdx j :: r2))
    /\ (forall c m a b k1 c1 k2 c2 r1 r2,
          resolves ast c -> getIn_ ast c = VMap m ->
          m !! a = Some (k1, c1) -> m !! b = Some (k2, c2) -> a < b ->
          below c1 r1 -> below c2 r2 ->
          occurs_before keypaths (c ++ k1 :: r1) (c ++ k2 :: r2)).
Proof.
  intros Hc. exists (f_keypaths ast []). unfold allKeypathsInAst. rewrite Hc.
  split_and!; [done| | | | | | |].
  - intros p. apply f_keypaths_complete.
  - apply f_keypaths_nonempty.
  - intros Hwf p Hp. by apply f_keypaths_sound.
  - intros Hwf. by apply f_keypaths_NoDup.
  - intros p q. apply f_keypaths_parent_first.
  - intros c l i j x y r1 r2 Hr E Hi Hj Hlt H1 H2.
    apply (f_keypaths_children_in_order ast c i j _ x _ y); try done.
    + rewrite E. by apply entries_VList_lookup.
    + rewrite E. by apply entries_VList_lookup.
    + by apply resolves_below.
    + by apply resolves_below.
  - intros c m a b k1 c1 k2 c2 r1 r2 Hr E Ha Hb Hlt H1 H2.
    apply (f_keypaths_children_in_order ast c a b _ c1 _ c2); try done.
    + by rewrite E.
    + by rewrite E.
Qed.

(** ** Results *)

Lemma bind_Ok_inv {A B} (r : result A) (f : A -> result B) y :
  r ≫= f = Ok y -> exists x, r = Ok x /\ f x = Ok y.
Proof. destruct r as [x|t]; simpl; [eauto|done]. Qed.

Lemma fmap_Ok_inv {A B} (r : result A) (f : A -> B) y :
  f <$> r = Ok y -> exists x, r = Ok x /\ y = f x.
Proof. destruct r as [x|t]; simpl; [|done]. intros [= <-]. eauto. Qed.

Lemma annotate_Ok_inv {A} message translation (r : result A) x :
  annotate message translation r = Ok x -> r = Ok x.
Proof. destruct r as [a|[e|e]]; simpl; done. Qed.

Lemma annotate_Ok {A} message translation (x : A) :
  annotate message translation (Ok x) = Ok x.
Proof. done. Qed.

(** ** Markers *)

Lemma getIn__field m k rest :
  getIn_ (VMap m) (KStr k :: rest) = getIn_ (field m k) rest.
Proof.
  simpl. unfold field. destruct (map_lookup m (KStr k)); [done|].
  by rewrite getIn__undef.
Qed.

Lemma getIn__not_map v k rest : isMap v = false -> getIn_ v (KStr k :: rest) = VUndef.
Proof. destruct v as [| | | | |l|m]; done. Qed.

Lemma matches_PMap_cons v k p fields :
  matches v (PMap ((k, p) :: fields))
  = matches (getIn_ v [KStr k]) p && matches v (PMap fields).
Proof.
  destruct v as [| | | | |l|m]; try (by rewrite andb_false_r).
  rewrite getIn__field. done.
Qed.

Lemma matches_PMap_nil v : matches v (PMap []) = isMap v.
Proof. by destruct v. Qed.

Lemma literal_field_isMap v k lit :
  lit <> VUndef ->
  value_eqb lit (getIn_ v [KStr k]) && isMap v = value_eqb lit (getIn_ v [KStr k]).
Proof.
  intros Hne. destruct (isMap v) eqn:E; [by rewrite andb_true_r|].
  rewrite getIn__not_map by done. rewrite andb_false_r.
  symmetry. by apply value_eqb_neq.
Qed.

Lemma isStringMarker_leaves x :
  isStringMarker x
  = value_eqb (VStr "CallExpression") (getIn_ x [KStr "type"])
    && (value_eqb (VStr "Identifier") (getIn_ x [KStr "callee"; KStr "type"])
        && value_eqb (VStr "i18n") (getIn_ x [KStr "callee"; KStr "name"])).
Proof.
  unfold isStringMarker, matcher.
  rewrite !matches_PMap_cons, !matches_PMap_nil.
  cbn [matches]. rewrite (literal_field_isMap (getIn_ x [KStr "callee"])) by done.
  rewrite <- !getIn__app. cbn [app].
  destruct (isMap x) eqn:E; [by rewrite andb_true_r|].
  rewrite !(getIn__not_map x) by done. done.
Qed.

Lemma isElementMarker_leaves x :
  isElementMarker x
  = value_eqb (VStr "XJSElement") (getIn_ x [KStr "type"])
    && (value_eqb (VStr "XJSOpeningElement")
          (getIn_ x [KStr "openingElement"; KStr "type"])
        && (value_eqb (VBool false)
              (getIn_ x [KStr "openingElement"; KStr "selfClosing"])
            && (value_eqb (VStr "XJSIdentifier")
                  (getIn_ x [KStr "openingElement"; KStr "name"; KStr "type"])
                && value_eqb (VStr "I18N")
                     (getIn_ x [KStr "openingElement"; KStr "name"; KStr "name"])))).
Proof.
  unfold isElementMarker, matcher.
  rewrite !matches_PMap_cons, !matches_PMap_nil.
  cbn [matches].
  rewrite (literal_field_isMap (getIn_ (getIn_ x [KStr "openingElement"]) [KStr "name"]))
    by done.
  rewrite <- !getIn__app. cbn [app].
  destruct (isMap x) eqn:E.
  - rewrite andb_true_r.
    destruct (isMap (getIn_ x [KStr "openingElement"])) eqn:E'; [by rewrite andb_true_r|].
    assert (getIn_ x [KStr "openingElement"; KStr "type"] = VUndef) as ->.
    { change [KStr "openingElement"; KStr "type"]
        with ([KStr "openingElement"] ++ [KStr "type"]).
      by rewrite getIn__app, getIn__not_map. }
    by rewrite !andb_false_r.
  - rewrite !(getIn__not_map x) by done. done.
Qed.

Lemma isMarker_VMap x : isMarker x = true -> exists m, x = VMap m.
Proof. destruct x; try done. eauto. Qed.


Lemma isStringMarker_type x :
  isStringMarker x = true -> getIn_ x [KStr "type"] = VStr "CallExpression".
Proof.
  rewrite isStringMarker_leaves. intros [H _]%andb_true_iff.
  by apply value_eqb_eq in H.
Qed.

Lemma isElementMarker_type x :
  isElementMarker x = true -> getIn_ x [KStr "type"] = VStr "XJSElement".
Proof.
  rewrite isElementMarker_leaves. intros [H _]%andb_true_iff.
  by apply value_eqb_eq in H.
Qed.







(** ** The substitution driver *)

Lemma run_cons translations keypath keypaths ast :
  run translations (keypath :: keypaths) ast
  = cur ← run translations keypaths ast; substitute translations cur keypath.
Proof. done. Qed.


Lemma sanitize_Ok_VMap v s : sanitize v = Ok s -> exists m, v = VMap m.
Proof. destruct v; try done. eauto. Qed.

(** A substitution that returns has replaced the subtree at a keypath
    that resolves. *)
Lemma substitute_Ok translations cur keypath cur' :
  substitute translations cur keypath = Ok cur' ->
  is_collection cur = true /\ resolves cur keypath
  /\ exists r, cur' = replaceIn cur keypath r.
Proof.
  unfold substitute. intros H.
  apply bind_Ok_inv in H as (message & Hm & H). apply annotate_Ok_inv in Hm.
  unfold getIn in Hm. destruct (is_collection cur) eqn:Hc; [|done].
  injection Hm as <-.
  apply bind_Ok_inv in H as (key & Hkey & H). apply annotate_Ok_inv in Hkey.
  apply bind_Ok_inv in Hkey as (s & Hs & _).
  assert (resolves cur keypath) as Hr.
  { apply getIn__defined_resolves. intros E. by rewrite E in Hs. }
  split; [done|]. split; [done|].
  assert (forall prepared,
            (parsed ← parseFragment prepared;
             validated ← validateTranslation parsed (getIn_ cur keypath);
             reconstituted ← reconstitute validated (getIn_ cur keypath);
             setIn cur keypath reconstituted) = Ok cur' ->
            exists r, cur' = replaceIn cur keypath r) as Hfinal.
  { intros prepared H'.
    apply bind_Ok_inv in H' as (parsed & _ & H').
    apply bind_Ok_inv in H' as (validated & _ & H').
    apply bind_Ok_inv in H' as (reconstituted & _ & H').
    rewrite setIn_resolves in H' by done. injection H' as <-. eauto. }
  destruct (property_of _ _) as [s'|name|]; cbv zeta in H.
  - destruct (negb (truthy _)).
    + apply annotate_Ok_inv, bind_Ok_inv in H as (? & _ & ?). done.
    + apply bind_Ok_inv in H as (prepared & _ & H).
      apply annotate_Ok_inv in H. by eapply Hfinal.
  - apply bind_Ok_inv in H as (prepared & _ & H).
    apply annotate_Ok_inv in H. by eapply Hfinal.
  - apply annotate_Ok_inv, bind_Ok_inv in H as (? & _ & ?). done.
Qed.

(** After any number of substitutions the document is what it was on
    every keypath that parts from the keypaths rewritten. *)
Lemma run_agree translations post ast cur q :
  run translations post ast = Ok cur ->
  (forall k, k ∈ post -> diverge k q) ->
  getIn_ cur q = getIn_ ast q.
Proof.
  revert cur. induction post as [|k post IH]; intros cur.
  - intros [= <-]. done.
  - rewrite run_cons. intros H Hd.
    apply bind_Ok_inv in H as (cur0 & H0 & H).
    apply substitute_Ok in H as (_ & _ & r & ->).
    rewrite getIn__replaceIn_diverge by (apply Hd; left).
    apply IH; [done|]. intros k' Hk'. apply Hd. by right.
Qed.





Lemma keypathsForMessageNodesInAst_Ok ast keypaths :
  keypathsForMessageNodesInAst ast = Ok keypaths ->
  is_collection ast = true
  /\ keypaths = List.filter (fun keypath => isMarker (getIn_ ast keypath))
                  (f_keypaths ast []).
Proof.
  unfold keypathsForMessageNodesInAst, allKeypathsInAst.
  destruct (is_collection ast); [|done]. simpl. intros H.
  apply bind_Ok_inv in H as (? & _ & [= <-]). done.
Qed.

Lemma StronglySorted_filter {A} (R : relation A) (g : A -> bool) l :
  StronglySorted R l -> StronglySorted R (List.filter g l).
Proof.
  induction 1 as [|x l _ IH Hx]; simpl; [constructor|].
  destruct (g x); [|done]. constructor; [done|].
  apply Forall_forall. intros y Hy%list_elem_of_In%filter_In.
  rewrite Forall_forall in Hx. apply Hx. apply list_elem_of_In. tauto.
Qed.

(** The message keypaths: markers of the document, none the empty
    keypath, none followed by one of its prefixes. *)
Lemma message_keypaths ast keypaths :
  wf_value ast -> keypathsForMessageNodesInAst ast = Ok keypaths ->
  is_collection ast = true
  /\ StronglySorted (fun p q => ~ q `prefix_of` p) keypaths
  /\ (forall k, k ∈ keypaths -> k <> [] /\ isMarker (getIn_ ast k) = true).
Proof.
  intros Hwf (Hc & ->)%keypathsForMessageNodesInAst_Ok. split_and!; [done| |].
  - by apply StronglySorted_filter, f_keypaths_sorted.
  - intros k Hk%list_elem_of_In%filter_In. destruct Hk as [Hk Hm]. split; [|done].
    intros ->. by eapply f_keypaths_nonempty, list_elem_of_In.
Qed.


Lemma diverge_app_r p q r : diverge p q -> diverge p (q ++ r).
Proof.
  intros (pre & k1 & k2 & r1 & r2 & Hne & -> & ->).
  exists pre, k1, k2, r1, (r2 ++ r). by rewrite <- !app_assoc.
Qed.



(** ** Strings *)

Lemma append_nil_l (s : string) : "" +:+ s = s.
Proof. done. Qed.

Lemma append_cons c (a b : string) : String c a +:+ b = String c (a +:+ b).
Proof. done. Qed.

Lemma append_nil_r (s : string) : s +:+ "" = s.
Proof. induction s as [|c s IH]; [done|]. by rewrite append_cons, IH. Qed.

Lemma prefix_append (a b : string) : String.prefix a (a +:+ b) = true.
Proof.
  induction a as [|c a IH]; [by destruct b|].
  rewrite append_cons. simpl. destruct (Ascii.ascii_dec c c); done.
Qed.

Lemma includes_prefix (needle hay : string) :
  String.prefix needle hay = true -> includes needle hay = true.
Proof. intros H. destruct hay; cbn [includes]; by rewrite H. Qed.


Lemma includes_append_l (needle pre hay : string) :
  includes needle hay = true -> includes needle (pre +:+ hay) = true.
Proof.
  intros H. induction pre as [|c pre IH]; rewrite ?append_nil_l, ?append_cons; [done|].
  cbn [includes]. rewrite IH. apply orb_true_r.
Qed.

Lemma includes_append_r (needle hay post : string) :
  includes needle hay = true -> includes needle (hay +:+ post) = true.
Proof.
  revert needle. induction hay as [|c hay IH]; intros needle;
    rewrite ?append_nil_l, ?append_cons; cbn [includes].
  - rewrite orb_false_r. destruct needle; [|done]. intros _.
    apply includes_prefix. by destruct post.
  - intros [H|H]%orb_true_iff.
    + apply orb_true_iff. left. revert H. clear IH.
      revert c hay. induction needle as [|d needle IHn]; intros c hay; simpl; [done|].
      destruct (Ascii.ascii_dec d c); [|done].
      destruct hay as [|c' hay]; rewrite ?append_nil_l, ?append_cons.
      * destruct needle; [|done]. intros _. by destruct post.
      * apply IHn.
    + rewrite IH by done. apply orb_true_r.
Qed.

Lemma includes_join separator (x : value) (l : list value) :
  x ∈ l -> includes (join_item x) (join separator l) = true.
Proof.
  induction l as [|y l IH]; [by intros ?%elem_of_nil|].
  intros [->|Hin]%elem_of_cons.
  - destruct l as [|z l]; cbn [join].
    + apply includes_prefix.
      rewrite <- (append_nil_r (join_item y)) at 2. apply prefix_append.
    + apply includes_prefix, prefix_append.
  - destruct l as [|z l]; [by apply elem_of_nil in Hin|].
    change (join separator (y :: z :: l))
      with (join_item y +:+ separator +:+ join separator (z :: l)).
    apply includes_append_l, includes_append_l. by apply IH.
Qed.

(** ** Duplicated names *)

Lemma occurrences_app x l l' :
  occurrences x (l ++ l') = occurrences x l + occurrences x l'.
Proof. unfold occurrences. by rewrite List.filter_app, length_app. Qed.

Lemma occurrences_singleton x y :
  occurrences x [y] = if value_eqb x y then 1 else 0.
Proof. unfold occurrences. simpl. by destruct (value_eqb x y). Qed.

Lemma existsb_value_eqb x l : existsb (value_eqb x) l = true <-> x ∈ l.
Proof.
  rewrite existsb_exists. split.
  - intros (y & Hin & ->%value_eqb_eq). by apply list_elem_of_In.
  - intros Hin. exists x. split; [by apply list_elem_of_In|apply value_eqb_refl].
Qed.

Lemma duplicatedValues_spec xs x :
  x ∈ duplicatedValues xs <-> 2 <= occurrences x xs.
Proof.
  unfold duplicatedValues.
  set (step := fun '(seen, dupes) x =>
                 if existsb (value_eqb x) seen && negb (existsb (value_eqb x) dupes)
                 then (seen, dupes ++ [x]) else (seen ++ [x], dupes)).
  assert (forall done seen dupes,
             (forall y, y ∈ seen <-> 1 <= occurrences y done) ->
             (forall y, y ∈ dupes <-> 2 <= occurrences y done) ->
             x ∈ (foldl step (seen, dupes) xs).2
             <-> 2 <= occurrences x (done ++ xs)) as H.
  { induction xs as [|z xs IH]; intros prev seen dupes Hseen Hdupes.
    - rewrite app_nil_r. apply Hdupes.
    - simpl. replace (prev ++ z :: xs) with ((prev ++ [z]) ++ xs)
        by by rewrite <- app_assoc.
      destruct (existsb (value_eqb z) seen && negb (existsb (value_eqb z) dupes)) eqn:E.
      + apply andb_true_iff in E as [Es Ed]. apply existsb_value_eqb, Hseen in Es.
        apply negb_true_iff in Ed.
        apply IH; intros y; rewrite occurrences_app, occurrences_singleton.
        * rewrite Hseen. destruct (value_eqb y z) eqn:Eyz; [|lia].
          apply value_eqb_eq in Eyz. subst. lia.
        * rewrite elem_of_app, list_elem_of_singleton, Hdupes.
          destruct (value_eqb y z) eqn:Eyz.
          -- apply value_eqb_eq in Eyz. subst. split; [lia|auto].
          -- apply value_eqb_neq in Eyz. split; [intros [?|?]; [lia|done]|]. intros ?. left. lia.
      + apply IH; intros y; rewrite occurrences_app, occurrences_singleton.
        * rewrite elem_of_app, list_elem_of_singleton, Hseen.
          destruct (value_eqb y z) eqn:Eyz.
          -- apply value_eqb_eq in Eyz. subst. split; [lia|auto].
          -- apply value_eqb_neq in Eyz. split; [intros [?|?]; [lia|done]|]. intros ?. left. lia.
        * rewrite Hdupes. destruct (value_eqb y z) eqn:Eyz; [|lia].
          apply value_eqb_eq in Eyz. subst.
          apply andb_false_iff in E as [Es|Ed].
          -- assert (~ 1 <= occurrences z prev) as Hz.
             { rewrite <- Hseen, <- existsb_value_eqb. by rewrite Es. }
             lia.
          -- apply negb_false_iff, existsb_value_eqb, Hdupes in Ed. lia. }
  apply (H [] [] []); intros y; unfold occurrences; simpl;
    (split; [by intros ?%elem_of_nil|lia]).
Qed.

Lemma type_VMap ast t :
  getIn_ ast [KStr "type"] = VStr t -> exists m, ast = VMap m /\ field m "type" = VStr t.
Proof.
  destruct ast as [| | | | |l|m]; try done. rewrite getIn__field. eauto.
Qed.

Lemma with_field_on_list {A} (f : list value -> result A) (k : string) m :
  with_field (on_list f) throwTypeError k m = on_list f (field m k).
Proof. apply (with_field_field (on_list f)). Qed.


(** C7: when the collector emits a name twice in a message, at whatever
    depth, collecting the definitions raises an input error whose
    description lists every name emitted twice; validation of the message
    raises it first, so extraction produces no text for the message. *)
Theorem namedExpressionDefinitions_duplicates (ast : value)
    (listOfPairs : list (value * value)) :
  _namedExpressionDefinitions ast = Ok listOfPairs ->
  (exists name, 2 <= occurrences name (map fst listOfPairs)) ->
  exists dupes,
    (forall name, name ∈ dupes <-> 2 <= occurrences name (map fst listOfPairs))
    /\ let description :=
         "Message has two named expressions with the same name: "
         +:+ join ", " dupes in
       namedExpressionDefinitions ast = throwInputError description
       /\ (forall name, 2 <= occurrences name (map fst listOfPairs) ->
           includes (join_item name) description = true)
       /\ (getIn_ ast [KStr "type"] = VStr "XJSElement" ->
           validateMessage ast = throwInputError description
           /\ annotateMessage ast
                (validated ← validateMessage ast;
                 sanitized ← sanitize validated;
                 generateMessage sanitized)
              = Throw (ThrowValue (coll_set (InputError description)
                                     (KStr "messageAst") ast))).
Proof.
  intros Hpairs [name Hname].
  exists (duplicatedValues (map fst listOfPairs)).
  split; [intros n; apply duplicatedValues_spec|]. intros description.
  assert (namedExpressionDefinitions ast = throwInputError description) as Hthrow.
  { unfold namedExpressionDefinitions. rewrite Hpairs. simpl.
    apply duplicatedValues_spec in Hname.
    destruct (duplicatedValues (map fst listOfPairs)); [by apply elem_of_nil in Hname|].
    done. }
  split_and!; [done| |].
  - intros n Hn. apply includes_append_l, includes_join.
    by apply duplicatedValues_spec.
  - intros (m & -> & Ht)%type_VMap.
    assert (validateMessage (VMap m) = throwInputError description) as Hv.
    { simpl. rewrite Ht. simpl. unfold validateJsxElement. by rewrite Hthrow. }
    split; [done|]. by rewrite Hv.
Qed.

(** ** Rendering errors *)

Lemma get_VMap m k : get (VMap m) k = Ok (field m k).
Proof. done. Qed.

Lemma generate_Ok_collection ast printed :
  generate ast = Ok printed -> is_collection ast = true.
Proof. unfold generate. by destruct (is_collection ast). Qed.

(** C10: an input error with a message subtree and a translation string
    renders with the line, the printed message and the translation; one
    with a message subtree only renders with the line and the printed
    message; one without a message subtree renders as its description;
    a native error renders as its stack. *)
Theorem errorMessageForError_shapes :
  (forall m messageAst translationString printed,
     truthy (field m "isInputError") = true ->
     field m "messageAst" = messageAst -> truthy messageAst = true ->
     field m "translationString" = translationString ->
     truthy translationString = true ->
     generate messageAst = Ok printed ->
     errorMessageForError (ThrowValue (VMap m))
     = Ok (VStr (newline +:+ "On line "
                 +:+ ToString (getIn_ messageAst [KStr "loc"; KStr "start"; KStr "line"])
                 +:+ ", when processing the message... " +:+ newline +:+ newline
                 +:+ printed +:+ newline +:+ newline
                 +:+ "...and its associated translation... " +:+ newline +:+ newline
                 +:+ ToString translationString +:+ newline +:+ newline
                 +:+ "...the following error occured: " +:+ newline +:+ newline
                 +:+ ToString (field m "description") +:+ newline)))
  /\ (forall m messageAst printed,
        truthy (field m "isInputError") = true ->
        field m "messageAst" = messageAst -> truthy messageAst = true ->
        truthy (field m "translationString") = false ->
        generate messageAst = Ok printed ->
        errorMessageForError (ThrowValue (VMap m))
        = Ok (VStr (newline +:+ "On line "
                    +:+ ToString (getIn_ messageAst [KStr "loc"; KStr "start"; KStr "line"])
                    +:+ ", when processing the message... " +:+ newline +:+ newline
                    +:+ printed +:+ newline +:+ newline
                    +:+ "...the following error occured: " +:+ newline +:+ newline
                    +:+ ToString (field m "description") +:+ newline)))
  /\ (forall m,
        truthy (field m "isInputError") = true ->
        truthy (field m "messageAst") = false ->
        errorMessageForError (ThrowValue (VMap m))
        = Ok (VStr (ToString (field m "description") +:+ newline)))
  /\ (forall err, errorMessageForError (ThrowNative err) = Ok (VStr (stack err))).
Proof.
  split_and!.
  - intros m messageAst translationString printed Hi <- Hm <- Ht Hg.
    unfold errorMessageForError, isInputError. rewrite Hi, !get_VMap. simpl.
    rewrite Hm, Ht. simpl. unfold getIn.
    rewrite (generate_Ok_collection _ _ Hg). simpl. by rewrite Hg.
  - intros m messageAst printed Hi <- Hm Ht Hg.
    unfold errorMessageForError, isInputError. rewrite Hi, !get_VMap. simpl.
    rewrite Hm, Ht. simpl. unfold getIn.
    rewrite (generate_Ok_collection _ _ Hg). simpl. by rewrite Hg.
  - intros m Hi Hm.
    unfold errorMessageForError, isInputError. rewrite Hi, !get_VMap. simpl.
    by rewrite Hm.
  - done.
Qed.

(** ** Message keys *)

Lemma isStringLiteral_value ast :
  isStringLiteral ast = true ->
  exists m text, ast = VMap m /\ field m "value" = VStr text.
Proof.
  unfold isStringLiteral, matcher.
  rewrite !matches_PMap_cons, matches_PMap_nil.
  intros [_ [Hv Hm]%andb_true_iff]%andb_true_iff.
  destruct ast as [| | | | |l|m]; try done. rewrite getIn__field in Hv.
  simpl in Hv. destruct (field m "value") eqn:E; try done. eauto.
Qed.




Lemma sanitize_CallExpression ast :
  getIn_ ast [KStr "type"] = VStr "CallExpression" -> sanitize ast = Ok ast.
Proof. intros (m & -> & Ht)%type_VMap. simpl. by rewrite Ht. Qed.

(** ** Reconstitution *)





(** ** Validation and sanitizing of expression containers *)

(** [validateMessage] on an element, as the source has it. *)
Lemma validateMessage_element ast :
  getIn_ ast [KStr "type"] = VStr "XJSElement" ->
  validateMessage ast
  = validateJsxElement ast
      (children ← get ast "children";
       on_list (forEachM validateMessage) children) ≫= fun _ => Ok ast.
Proof.
  intros (m & -> & Ht)%type_VMap. simpl. rewrite Ht. simpl.
  by rewrite with_field_on_list.
Qed.


(** ** Missing translations *)

Lemma includes_refl (s : string) : includes s s = true.
Proof.
  apply includes_prefix. rewrite <- (append_nil_r s) at 2. apply prefix_append.
Qed.


(** ** Messages without hidden detail *)

Section PlainInd.
Variable P : value -> Prop.
Hypothesis HLiteral : forall m, field m "type" = VStr "Literal" -> P (VMap m).
Hypothesis HXJSElement : forall m nameAst name attrs children,
  field m "type" = VStr "XJSElement" ->
  getIn_ (VMap m) [KStr "openingElement"; KStr "name"] = nameAst ->
  (getIn_ nameAst [KStr "type"] = VStr "XJSIdentifier"
   \/ getIn_ nameAst [KStr "type"] = VStr "XJSMemberExpression") ->
  generate nameAst = Ok name ->
  getIn_ (VMap m) [KStr "openingElement"; KStr "attributes"] = VList attrs ->
  Forall (fun a => attributeIsSafe name a = Ok true) attrs ->
  field m "children" = VList children ->
  Forall plain children -> Forall P children ->
  P (VMap m).

Fixpoint plain_nested_ind (v : value) (H : plain v) {struct H} : P v :=
  match H with
  | plain_Literal m Ht => HLiteral m Ht
  | plain_XJSElement m nameAst name attrs children Ht Hn Hty Hg Ha Hs Hc Hcs =>
      HXJSElement m nameAst name attrs children Ht Hn Hty Hg Ha Hs Hc Hcs
        ((fix all (l : list value) (Hl : Forall plain l) {struct Hl} : Forall P l :=
            match Hl with
            | @List.Forall_nil _ _ => Forall_nil_2 P
            | @List.Forall_cons _ _ x r Hx Hr =>
                Forall_cons_2 P x r (plain_nested_ind x Hx) (all r Hr)
            end) children Hcs)
  end.
End PlainInd.

(** Equality tests between string literals, computed. *)
Ltac eqb_literals :=
  repeat match goal with
    | |- context [value_eqb (VStr ?a) (VStr ?b)] =>
        let r := eval vm_compute in (value_eqb (VStr a) (VStr b)) in
        match r with
        | true => change (value_eqb (VStr a) (VStr b)) with true
        | false => change (value_eqb (VStr a) (VStr b)) with false
        end
    end.

Lemma attributeIsSafe_true name a :
  attributeIsSafe name a = Ok true ->
  name = "a" /\ attributeName a = Ok (VStr "href").
Proof.
  unfold attributeIsSafe, property_of. destruct (String.eqb name ""); [done|].
  unfold allowedAttributesByComponentName.
  destruct (decide (name = "a")) as [->|Hne].
  - rewrite lookup_singleton_eq.
    destruct (attributeName a) as [n|t]; [|done]. simpl.
    rewrite orb_false_r. intros [= H%value_eqb_eq]. by subst.
  - rewrite lookup_singleton_ne by done.
    destruct (bool_decide (name ∈ Object_prototype));
      by destruct (attributeName a).
Qed.

Lemma filterM_all {A} (f : A -> result bool) l :
  Forall (fun a => f a = Ok true) l -> filterM f l = Ok l.
Proof.
  induction 1 as [|a l Ha _ IH]; [done|]. simpl. rewrite Ha. simpl.
  by rewrite IH.
Qed.

Lemma filterM_none {A} (f : A -> result bool) l :
  Forall (fun a => f a = Ok false) l -> filterM f l = Ok [].
Proof.
  induction 1 as [|a l Ha _ IH]; [done|]. simpl. rewrite Ha. simpl.
  by rewrite IH.
Qed.

Lemma someM_none {A} (f : A -> result bool) l :
  Forall (fun a => f a = Ok false) l -> someM f l = Ok false.
Proof. induction 1 as [|a l Ha _ IH]; [done|]. simpl. by rewrite Ha. Qed.

Section PlainElement.
Variables (m : list (key * value)) (nameAst : value) (name : string)
  (attrs children : list value).
Hypothesis Htype : field m "type" = VStr "XJSElement".
Hypothesis Hname : getIn_ (VMap m) [KStr "openingElement"; KStr "name"] = nameAst.
Hypothesis HnameType :
  getIn_ nameAst [KStr "type"] = VStr "XJSIdentifier"
  \/ getIn_ nameAst [KStr "type"] = VStr "XJSMemberExpression".
Hypothesis Hgenerate : generate nameAst = Ok name.
Hypothesis Hattrs :
  getIn_ (VMap m) [KStr "openingElement"; KStr "attributes"] = VList attrs.
Hypothesis Hsafe : Forall (fun a => attributeIsSafe name a = Ok true) attrs.
Hypothesis Hchildren : field m "children" = VList children.

Lemma plain_componentNameAst : componentNameAst (VMap m) = Ok nameAst.
Proof.
  unfold componentNameAst, getIn. cbn [is_collection]. rewrite Hname.
  cbn [mbind result_bind].
  destruct HnameType as [H|H]; destruct (type_VMap _ _ H) as (m' & -> & Ht);
    rewrite (get_VMap m' "type"), Ht; cbn [mbind result_bind]; by eqb_literals.
Qed.

Lemma plain_componentName : componentName (VMap m) = Ok name.
Proof. unfold componentName. by rewrite plain_componentNameAst. Qed.

Lemma plain_attributes : attributes (VMap m) = Ok (VList attrs).
Proof. unfold attributes, getIn. cbn [is_collection]. by rewrite Hattrs. Qed.

Lemma plain_filter_safe : filterM (attributeIsSafe name) attrs = Ok attrs.
Proof. by apply filterM_all. Qed.

Lemma plain_some_unsafe :
  someM (fun a => negb <$> attributeIsSafe name a) attrs = Ok false.
Proof.
  apply someM_none. eapply Forall_impl; [exact Hsafe|].
  intros a Ha. simpl in *. by rewrite Ha.
Qed.

Lemma plain_filter_hidden :
  filterM (fun attrib => name' ← componentName (VMap m);
                         negb <$> attributeIsSafe name' attrib) attrs = Ok [].
Proof.
  apply filterM_none. eapply Forall_impl; [exact Hsafe|].
  intros a Ha. cbn beta in *. rewrite plain_componentName. simpl. by rewrite Ha.
Qed.

Lemma plain_filter_designation :
  filterM (fun attrib => n ← attributeName attrib;
                         Ok (value_eqb n (VStr "i18n-designation"))) attrs = Ok [].
Proof.
  apply filterM_none. eapply Forall_impl; [exact Hsafe|].
  intros a Ha. simpl in *. by apply attributeIsSafe_true in Ha as [_ ->].
Qed.

Lemma plain_hasUnsafeAttributes : hasUnsafeAttributes (VMap m) = Ok false.
Proof.
  unfold hasUnsafeAttributes.
  rewrite plain_componentName, plain_attributes. simpl.
  apply plain_some_unsafe.
Qed.

Lemma plain_componentDesignation : componentDesignation (VMap m) = Ok VUndef.
Proof.
  unfold componentDesignation, getIn. cbn [is_collection]. rewrite Hname.
  cbn [mbind result_bind].
  assert (attributeWithName (VMap m) "i18n-designation" = Ok VUndef) as Hw.
  { unfold attributeWithName. rewrite plain_attributes. simpl.
    by rewrite plain_filter_designation. }
  destruct HnameType as [H|H]; destruct (type_VMap _ _ H) as (m' & -> & Ht);
    rewrite (get_VMap m' "type"), Ht; cbn [mbind result_bind]; by eqb_literals.
Qed.

Lemma plain_resolves_attributes :
  resolves (VMap m) [KStr "openingElement"; KStr "attributes"].
Proof. apply getIn__defined_resolves. by rewrite Hattrs. Qed.

Lemma plain_resolves_children : resolves (VMap m) [KStr "children"].
Proof.
  apply getIn__defined_resolves. rewrite getIn__field. simpl. by rewrite Hchildren.
Qed.

Lemma plain_update_children :
  update (VMap m) "children" (fun _ => Ok (VList children)) = Ok (VMap m).
Proof.
  unfold update. rewrite (updateIn_resolves _ _ _ (VList children)); try done.
  - f_equal. rewrite <- (replaceIn_same (VMap m) [KStr "children"]) at 2.
    + f_equal. rewrite getIn__field. simpl. by rewrite Hchildren.
    + apply plain_resolves_children.
  - apply plain_resolves_children.
Qed.

Lemma plain_rewriteDesignation :
  rewriteDesignationToNamespaceSyntax (VMap m) = Ok (VMap m).
Proof.
  unfold rewriteDesignationToNamespaceSyntax.
  rewrite plain_componentName, plain_componentDesignation. simpl.
  unfold attributeWithName. rewrite plain_attributes. simpl.
  by rewrite plain_filter_designation.
Qed.

Lemma plain_withSafeAttributesOnly : withSafeAttributesOnly (VMap m) = Ok (VMap m).
Proof.
  unfold withSafeAttributesOnly, updateAttributes.
  rewrite plain_componentName. simpl.
  rewrite (updateIn_resolves _ _ _ (VList attrs)); try done.
  - f_equal. rewrite <- Hattrs. apply replaceIn_same, plain_resolves_attributes.
  - apply plain_resolves_attributes.
  - rewrite Hattrs. simpl. by rewrite plain_filter_safe.
Qed.
End PlainElement.

Lemma mapM_id (f : value -> result value) l :
  Forall (fun c => f c = Ok c) l -> mapM f l = Ok l.
Proof.
  induction 1 as [|c l Hc _ IH]; [done|]. simpl. rewrite Hc. simpl.
  by rewrite IH.
Qed.

Lemma flatMapM_nil {A B} (f : A -> result (list B)) l :
  Forall (fun c => f c = Ok []) l -> flatMapM f id l = Ok [].
Proof.
  induction 1 as [|c l Hc _ IH]; [done|]. simpl. rewrite Hc. simpl.
  by rewrite IH.
Qed.

Lemma plain_fixed ast :
  plain ast ->
  sanitize ast = Ok ast
  /\ (forall definitions, _reconstitute ast definitions = Ok ast)
  /\ _namedExpressionDefinitions ast = Ok [].
Proof.
  induction 1 as [m Ht|m nameAst name attrs children Ht Hn Hty Hg Ha Hs Hc Hcs IH]
    using plain_nested_ind.
  - split_and!; [|intros definitions|]; simpl; rewrite Ht; by eqb_literals.
  - split_and!; [|intros definitions|].
    + simpl. rewrite Ht. eqb_literals. cbn [orb].
      unfold sanitizeJsxElement.
      rewrite (plain_rewriteDesignation m nameAst name attrs) by done.
      cbn [mbind result_bind].
      rewrite (plain_withSafeAttributesOnly m nameAst name attrs) by done.
      cbn [mbind result_bind].
      rewrite with_field_on_list, Hc. cbn [on_list].
      rewrite mapM_id.
      * by apply plain_update_children.
      * eapply Forall_impl; [exact IH|]. by intros c (? & _ & _).
    + simpl. rewrite Ht. eqb_literals. cbn [orb].
      unfold reconstituteJsxElement.
      rewrite (plain_hasUnsafeAttributes m nameAst name attrs) by done.
      cbn [mbind result_bind].
      rewrite (plain_componentDesignation m nameAst name attrs) by done.
      cbn [mbind result_bind truthy].
      rewrite with_field_on_list, Hc. cbn [on_list].
      rewrite mapM_id.
      * by apply plain_update_children.
      * eapply Forall_impl; [exact IH|]. by intros c (_ & ? & _).
    + simpl. rewrite Ht. eqb_literals.
      unfold namedExpressionDefinitionsInJsxElement.
      rewrite (plain_attributes m attrs) by done.
      cbn [mbind result_bind on_list].
      rewrite (plain_filter_hidden m nameAst name attrs) by done.
      cbn [mbind result_bind length Nat.eqb].
      rewrite with_field_on_list, Hc. cbn [on_list].
      rewrite flatMapM_nil; [done|].
      eapply Forall_impl; [exact IH|]. by intros c (_ & _ & ?).
Qed.

(** C1 (amended): for every element message whose elements carry no
    designation and allow-listed attributes only, and whose other content
    is text, sanitizing and then reconstituting against the message
    itself gives the message back, so the reconstituted subtree prints as
    the message does. *)
Theorem sanitize_reconstitute_roundtrip (m : value) :
  plain m ->
  (sanitized ← sanitize m; reconstitute sanitized m) = Ok m
  /\ (reconstituted ← (sanitized ← sanitize m; reconstitute sanitized m);
      generate reconstituted) = generate m.
Proof.
  intros (Hs & Hr & Hd)%plain_fixed.
  assert ((sanitized ← sanitize m; reconstitute sanitized m) = Ok m) as H.
  { rewrite Hs. simpl. unfold reconstitute, namedExpressionDefinitions.
    rewrite Hd. simpl. apply Hr. }
  split; [done|]. by rewrite H.
Qed.

(** ** Reconstituting designated elements *)

Lemma divergeb_diverge p q : divergeb p q = true -> diverge p q.
Proof.
  revert q. induction p as [|k1 p IH]; intros [|k2 q]; simpl; try done.
  destruct (key_eqb k1 k2) eqn:E.
  - apply key_eqb_eq in E. subst. intros H.
    destruct (IH _ H) as (c & a & b & r1 & r2 & Hne & -> & ->).
    by exists (k2 :: c), a, b, r1, r2.
  - intros _. apply key_eqb_neq in E. by exists [], k1, k2, p, q.
Qed.


Lemma resolves_replaceIn_diverge c p q u :
  diverge p q -> resolves c q -> resolves (replaceIn c p u) q.
Proof.
  intros (pre & k1 & k2 & r1 & r2 & Hne & -> & ->). revert c.
  induction pre as [|k pre IH]; intros c; simpl.
  - destruct (lookup_raw c k1) as [x|] eqn:E; [|done].
    by rewrite (lookup_raw_coll_set_other _ _ _ _ _ E Hne).
  - destruct (lookup_raw c k) as [x|] eqn:E; [|done].
    rewrite (lookup_raw_coll_set_same _ _ _ _ E). apply IH.
Qed.

Lemma resolves_collection c k p : resolves c (k :: p) -> is_collection c = true.
Proof.
  simpl. destruct (lookup_raw c k) eqn:E; [|done]. intros _.
  by eapply lookup_raw_Some_collection.
Qed.


Lemma mapM_Forall2 {A B} (f : A -> result B) l l' :
  Forall2 (fun x y => f x = Ok y) l l' -> mapM f l = Ok l'.
Proof.
  induction 1 as [|x y l l' Hx _ IH]; [done|]. simpl. rewrite Hx. simpl.
  by rewrite IH.
Qed.

Lemma get_getIn_ c k : is_collection c = true -> get c k = Ok (getIn_ c [KStr k]).
Proof.
  intros Hc. unfold get. rewrite Hc. simpl. by destruct (lookup_raw c (KStr k)).
Qed.

Lemma attributeMap_collections l :
  Forall (fun a => is_collection a = true) l ->
  attributeMap (VList l) = Ok (amap_of_pairs (attributePairs l)).
Proof.
  intros H. unfold attributeMap. simpl.
  rewrite (mapM_Forall2 _ _ (attributePairs l)); [done|].
  unfold attributePairs. induction H as [|a l Ha _ IH]; constructor; [|done].
  by rewrite !get_getIn_.
Qed.


(** [componentNameAst] looks at the name of the opening element only. *)
Lemma componentNameAst_agree t t' c :
  is_collection t' = true ->
  getIn_ t' [KStr "openingElement"; KStr "name"]
  = getIn_ t [KStr "openingElement"; KStr "name"] ->
  componentNameAst t = Ok c -> componentNameAst t' = Ok c.
Proof.
  intros Hc' E. unfold componentNameAst, getIn. rewrite Hc', E.
  destruct (is_collection t); [|done]. simpl.
  destruct (get _ "type") as [type|]; [|done]. simpl.
  destruct (value_eqb type (VStr "XJSNamespacedName")); [done|].
  destruct (value_eqb type (VStr "XJSIdentifier")
            || value_eqb type (VStr "XJSMemberExpression")); [done|].
  by destruct (generateOpening t).
Qed.




Lemma amap_merge_cons (m : amap) k v m' :
  amap_merge m ((k, v) :: m') = amap_merge (amap_set m k v) m'.
Proof. done. Qed.



Lemma attributesFromMap_nodes (m : amap) :
  attributesFromMap m = VList (map attributeNode m).
Proof.
  unfold attributesFromMap. f_equal. apply map_ext. by intros [k v].
Qed.



Lemma componentNameAst_resolves t c :
  componentNameAst t = Ok c -> resolves t [KStr "openingElement"; KStr "name"].
Proof.
  unfold componentNameAst, getIn. destruct (is_collection t); [|done].
  cbn [mbind result_bind].
  intros H. apply getIn__defined_resolves. intros E. by rewrite E in H.
Qed.

Ltac diverging := apply divergeb_diverge; reflexivity.


(** * Further properties *)

(** ** Duplicated values and the definition map *)

Lemma occurrences_cons x y l :
  occurrences x (y :: l) = (if value_eqb x y then 1 else 0) + occurrences x l.
Proof. unfold occurrences. simpl. by destruct (value_eqb x y). Qed.

Lemma occurrences_zero x l : occurrences x l = 0 <-> x ∉ l.
Proof.
  induction l as [|y l IH]; [by split; [intros _ ?%elem_of_nil|]|].
  rewrite occurrences_cons, not_elem_of_cons.
  destruct (value_eqb x y) eqn:E.
  - apply value_eqb_eq in E. split; [lia|]. by intros [? _].
  - apply value_eqb_neq in E. simpl. rewrite IH.
    split; [intros H; by split|by intros [_ H]].
Qed.

Lemma occurrences_pos x l : 1 <= occurrences x l <-> x ∈ l.
Proof.
  induction l as [|y l IH].
  - unfold occurrences. simpl. split; [lia|by intros ?%elem_of_nil].
  - rewrite occurrences_cons, elem_of_cons, <- IH.
    destruct (value_eqb x y) eqn:E.
    + apply value_eqb_eq in E. split; [auto|lia].
    + apply value_eqb_neq in E. simpl. split; [auto|]. by intros [?|?].
Qed.

Lemma NoDup_occurrences l : NoDup l <-> forall x, occurrences x l <= 1.
Proof.
  induction l as [|y l IH].
  - split; [intros _ x; unfold occurrences; simpl; lia|intros _; constructor].
  - rewrite NoDup_cons, IH. split.
    + intros [Hy Hl] x. rewrite occurrences_cons.
      destruct (value_eqb x y) eqn:E; [|apply Hl].
      apply value_eqb_eq in E. subst. apply occurrences_zero in Hy. lia.
    + intros H. split.
      * apply occurrences_zero. specialize (H y).
        rewrite occurrences_cons, value_eqb_refl in H. lia.
      * intros x. specialize (H x). rewrite occurrences_cons in H. lia.
Qed.

Lemma duplicatedValues_NoDup xs : NoDup (duplicatedValues xs).
Proof.
  unfold duplicatedValues.
  set (step := fun '(seen, dupes) x =>
                 if existsb (value_eqb x) seen && negb (existsb (value_eqb x) dupes)
                 then (seen, dupes ++ [x]) else (seen ++ [x], dupes)).
  assert (forall seen dupes, NoDup dupes -> NoDup (foldl step (seen, dupes) xs).2)
    as H; [|apply (H [] []); constructor].
  induction xs as [|z xs IH]; intros seen dupes Hdupes; [done|]. simpl.
  destruct (existsb (value_eqb z) seen && negb (existsb (value_eqb z) dupes)) eqn:E;
    apply IH; [|done].
  apply andb_true_iff in E as [_ Ed]. apply negb_true_iff in Ed.
  apply NoDup_app. split; [done|]. split; [|apply NoDup_singleton].
  intros y Hy ->%list_elem_of_singleton.
  apply existsb_value_eqb in Hy. congruence.
Qed.

Lemma duplicatedValues_nil xs : duplicatedValues xs = [] <-> NoDup xs.
Proof.
  rewrite NoDup_occurrences. split.
  - intros H x. destruct (decide (2 <= occurrences x xs)) as [Hx|]; [|lia].
    apply duplicatedValues_spec in Hx. rewrite H in Hx. by apply elem_of_nil in Hx.
  - intros H. destruct (duplicatedValues xs) as [|x l] eqn:E; [done|].
    assert (x ∈ duplicatedValues xs) as Hx by (rewrite E; left).
    apply duplicatedValues_spec in Hx. specialize (H x). lia.
Qed.

(** X1: [duplicatedValues] returns every value that occurs more than once
    in the list exactly once, values of the list only, and the empty set
    exactly when no value of the list is repeated. *)
Theorem duplicatedValues_once (xs : list value) :
  NoDup (duplicatedValues xs)
  /\ (forall x, x ∈ duplicatedValues xs -> x ∈ xs)
  /\ (forall x, x ∈ xs -> x ∉ duplicatedValues xs -> occurrences x xs = 1)
  /\ (duplicatedValues xs = [] <-> NoDup xs).
Proof.
  split; [apply duplicatedValues_NoDup|]. split; [|split].
  - intros x Hx%duplicatedValues_spec. apply occurrences_pos. lia.
  - intros x Hx%occurrences_pos Hn. rewrite duplicatedValues_spec in Hn. lia.
  - apply duplicatedValues_nil.
Qed.

Lemma amap_of_pairs_NoDup (pairs : list (value * value)) :
  NoDup (pairs.*1) -> amap_of_pairs pairs = pairs.
Proof.
  unfold amap_of_pairs.
  assert (forall m : amap, NoDup ((m ++ pairs).*1) -> amap_merge m pairs = m ++ pairs)
    as H; [|apply (H [])].
  induction pairs as [|[k v] pairs IH]; intros m Hm.
  - by rewrite app_nil_r.
  - rewrite amap_merge_cons.
    assert (amap_set m k v = m ++ [(k, v)]) as ->.
    { rewrite fmap_app, fmap_cons in Hm. apply NoDup_app in Hm as (_ & Hm & _).
      assert (k ∉ m.*1) as Hk.
      { intros Hin. apply (Hm k Hin). left. }
      clear -Hk. induction m as [|[k' v'] m IH]; [done|]. simpl.
      rewrite fmap_cons in Hk. apply not_elem_of_cons in Hk as [Hne Hk].
      apply value_eqb_neq in Hne. cbn [fst] in Hne. rewrite Hne. by rewrite IH. }
    rewrite IH; rewrite <- app_assoc; done.
Qed.

Lemma amap_get_NoDup (m : amap) k v :
  NoDup (m.*1) -> (k, v) ∈ m -> amap_get m k = v.
Proof.
  induction m as [|[k' v'] m IH]; intros Hm Hin; [by apply elem_of_nil in Hin|].
  rewrite fmap_cons in Hm. apply NoDup_cons in Hm as [Hk Hm]. simpl.
  apply elem_of_cons in Hin as [[= -> ->]|Hin].
  - by rewrite value_eqb_refl.
  - destruct (value_eqb k k') eqn:E; [|by apply IH].
    apply value_eqb_eq in E. subst. destruct Hk.
    apply list_elem_of_fmap. by exists (k', v).
Qed.

(** X2: When the names the collector emits for a message are all different,
    [namedExpressionDefinitions] returns the map of the emitted pairs, in
    the order of emission, and the map gives for every emitted name the
    definition emitted with it; it returns a map in no other case. *)
Theorem namedExpressionDefinitions_distinct (ast : value)
    (listOfPairs : list (value * value)) :
  _namedExpressionDefinitions ast = Ok listOfPairs ->
  (NoDup (listOfPairs.*1) ->
   namedExpressionDefinitions ast = Ok listOfPairs
   /\ forall name definition,
        (name, definition) ∈ listOfPairs -> amap_get listOfPairs name = definition)
  /\ (forall definitions,
        namedExpressionDefinitions ast = Ok definitions -> NoDup (listOfPairs.*1)).
Proof.
  intros Hpairs. unfold namedExpressionDefinitions. rewrite Hpairs.
  cbn [mbind result_bind]. split.
  - intros Hnd. pose proof Hnd as Hd. apply duplicatedValues_nil in Hd.
    change (map fst listOfPairs) with (listOfPairs.*1). rewrite Hd.
    cbn [length Nat.eqb negb]. rewrite amap_of_pairs_NoDup by done.
    split; [done|]. intros name definition. by apply amap_get_NoDup.
  - intros definitions H. apply duplicatedValues_nil.
    change (map fst listOfPairs) with (listOfPairs.*1) in H.
    by destruct (duplicatedValues (listOfPairs.*1)).
Qed.

(** ** Attributes shown to translators *)

Lemma filterM_Ok {A} (f : A -> result bool) (b : A -> bool) l :
  Forall (fun a => f a = Ok (b a)) l -> filterM f l = Ok (List.filter b l).
Proof.
  induction 1 as [|a l Ha _ IH]; [done|]. simpl. rewrite Ha, IH.
  cbn [mbind result_bind]. by destruct (b a).
Qed.

Lemma someM_Ok {A} (f : A -> result bool) (b : A -> bool) l :
  Forall (fun a => f a = Ok (b a)) l -> someM f l = Ok (existsb b l).
Proof.
  induction 1 as [|a l Ha _ IH]; [done|]. simpl. rewrite Ha.
  cbn [mbind result_bind]. by destruct (b a).
Qed.


(** A component under a name that [Object.prototype] has: the test of
    the allow-list raises a [TypeError]. *)
Lemma attributeIsSafe_inherited name a :
  name ∈ Object_prototype -> is_collection a = true ->
  attributeIsSafe name a = throwTypeError.
Proof.
  intros Hin Ha. unfold attributeIsSafe, property_of, attributeName, getIn.
  assert (name <> "") as Hname%String.eqb_neq.
  { intros ->. revert Hin. by apply (bool_decide_eq_false_1 _). }
  assert (name <> "a") as Hne.
  { intros ->. revert Hin. by apply (bool_decide_eq_false_1 _). }
  rewrite Hname. unfold allowedAttributesByComponentName.
  rewrite lookup_singleton_ne by done.
  by rewrite bool_decide_eq_true_2, Ha.
Qed.

Lemma componentName_agree t t' name :
  is_collection t' = true ->
  getIn_ t' [KStr "openingElement"; KStr "name"]
  = getIn_ t [KStr "openingElement"; KStr "name"] ->
  componentName t = Ok name -> componentName t' = Ok name.
Proof.
  unfold componentName. intros Hc Hn H.
  apply bind_Ok_inv in H as (c & Hc' & Hg).
  by rewrite (componentNameAst_agree t t' c).
Qed.

Lemma componentName_collection t name :
  componentName t = Ok name -> is_collection t = true.
Proof.
  unfold componentName, componentNameAst, getIn. by destruct (is_collection t).
Qed.



(** ** Updates along a keypath *)

Lemma updateInDeepMap_applied updater existing path o :
  updateInDeepMap updater existing path = Ok o ->
  exists u, updater (getIn_ (default VUndef existing) path) = Ok u.
Proof.
  revert existing o. induction path as [|k rest IH]; intros existing o H.
  - simpl in H. apply bind_Ok_inv in H as (u & Hu & _). by exists u.
  - destruct existing as [c|].
    + cbn [updateInDeepMap] in H. destruct (is_collection c) eqn:Hc; [|done].
      apply bind_Ok_inv in H as (next & Hnext & _).
      apply IH in Hnext as (u & Hu). exists u.
      cbn [default from_option id getIn_].
      destruct (lookup_raw c k); cbn [default from_option id] in Hu; [done|].
      by rewrite getIn__undef in Hu.
    + cbn [updateInDeepMap] in H.
      apply bind_Ok_inv in H as (next & Hnext & _).
      apply IH in Hnext as (u & Hu). exists u.
      cbn [default from_option id] in *. by rewrite getIn__undef in *.
Qed.

Lemma diverge_cons_inv k1 p k2 q :
  diverge (k1 :: p) (k2 :: q) -> k1 <> k2 \/ (k1 = k2 /\ diverge p q).
Proof.
  intros (c & a & b & r1 & r2 & Hab & Hp & Hq).
  destruct c as [|k c]; simplify_list_eq; [by left|].
  right. split; [done|]. by exists c, a, b, r1, r2.
Qed.

Lemma diverge_nil_l q : ~ diverge [] q.
Proof. intros (c & a & b & r1 & r2 & _ & Hp & _). by destruct c. Qed.

Lemma getIn__coll_set_other c k k' u rest :
  k <> k' -> getIn_ (coll_set c k u) (k' :: rest) = getIn_ c (k' :: rest).
Proof.
  intros Hne. destruct c as [| | | | |l|m]; try done.
  - destruct k as [s|i]; [done|]. destruct k' as [s'|j]; [done|].
    assert (i <> j) as Hij by congruence.
    cbn [coll_set getIn_ lookup_raw]. unfold list_set.
    destruct (decide (i < length l)).
    + by rewrite list_lookup_insert_ne.
    + destruct (decide (j < length l)) as [Hj|Hj].
      * by rewrite lookup_app_l.
      * rewrite (lookup_ge_None_2 l j) by lia.
        rewrite lookup_app_r by lia.
        destruct (decide (j - length l < i - length l)) as [Hlt|Hge].
        -- rewrite lookup_app_l by by rewrite length_replicate.
           rewrite lookup_replicate_2 by done. apply getIn__undef.
        -- rewrite lookup_app_r by (rewrite length_replicate; lia).
           rewrite length_replicate.
           destruct (j - length l - (i - length l)) as [|d] eqn:E; [lia|].
           done.
  - cbn [coll_set getIn_ lookup_raw]. by rewrite map_lookup_set_other.
Qed.

Lemma getIn__coll_set_same c k u rest :
  is_collection c = true ->
  getIn_ (coll_set c k u) (k :: rest) = getIn_ u rest
  \/ coll_set c k u = c.
Proof.
  intros Hc. destruct c as [| | | | |l|m]; try done.
  - destruct k as [s|i]; [by right|]. left.
    cbn [coll_set getIn_ lookup_raw]. unfold list_set.
    destruct (decide (i < length l)).
    + by rewrite list_lookup_insert_eq.
    + rewrite lookup_app_r by lia. rewrite lookup_app_r; rewrite length_replicate; [|lia].
      by rewrite Nat.sub_diag.
  - left. cbn [coll_set getIn_ lookup_raw]. by rewrite map_lookup_set_same.
Qed.

(** An update leaves what lies beside the keypath as it is. *)
Lemma updateInDeepMap_frame updater existing path o q :
  updateInDeepMap updater existing path = Ok o -> diverge path q ->
  getIn_ (default VUndef o) q = getIn_ (default VUndef existing) q.
Proof.
  revert existing o q. induction path as [|k rest IH]; intros existing o q H Hd.
  - by apply diverge_nil_l in Hd.
  - destruct q as [|k' q]; [by apply diverge_sym, diverge_nil_l in Hd|].
    destruct existing as [c|].
    + cbn [updateInDeepMap] in H. destruct (is_collection c) eqn:Hc; [|done].
      apply bind_Ok_inv in H as (next & Hnext & H).
      destruct next as [u|]; [|by simplify_eq]. simplify_eq.
      cbn [default from_option id].
      apply diverge_cons_inv in Hd as [Hne|[-> Hd]].
      * by apply getIn__coll_set_other.
      * destruct (getIn__coll_set_same c k' u q Hc) as [E|E]; rewrite E; [|done].
        pose proof (IH _ _ q Hnext Hd) as Hq.
        cbn [default from_option id] in Hq. rewrite Hq. cbn [getIn_].
        destruct (lookup_raw c k'); cbn [default from_option id]; [done|].
        apply getIn__undef.
    + cbn [updateInDeepMap] in H.
      apply bind_Ok_inv in H as (next & Hnext & H).
      destruct next as [u|]; simplify_eq; [|done].
      cbn [default from_option id]. rewrite getIn__undef.
      apply diverge_cons_inv in Hd as [Hne|[-> Hd]].
      * cbn [map_set getIn_ lookup_raw map_lookup].
        assert (key_eqb k' k = false) as -> by (apply key_eqb_neq; congruence).
        done.
      * cbn [map_set getIn_ lookup_raw map_lookup]. rewrite key_eqb_refl.
        pose proof (IH _ _ q Hnext Hd) as Hq.
        cbn [default from_option id] in Hq. rewrite Hq. apply getIn__undef.
Qed.

Lemma updateIn_frame c path updater c' q :
  updateIn c path updater = Ok c' -> diverge path q -> getIn_ c' q = getIn_ c q.
Proof.
  unfold updateIn. destruct (is_collection c); [|done].
  intros (o & Ho & ->)%fmap_Ok_inv Hd.
  apply (updateInDeepMap_frame _ _ _ _ q Ho Hd).
Qed.

Lemma updateIn_collection c path updater c' :
  updateIn c path updater = Ok c' -> path <> [] ->
  is_collection c = true /\ is_collection c' = true.
Proof.
  unfold updateIn. destruct (is_collection c) eqn:Hc; [|done].
  intros (o & Ho & ->)%fmap_Ok_inv Hne. split; [done|].
  destruct path as [|k rest]; [done|]. cbn [updateInDeepMap] in Ho.
  rewrite Hc in Ho. apply bind_Ok_inv in Ho as (next & _ & Ho).
  destruct next; simplify_eq; cbn [default from_option id]; [|done].
  by destruct c as [| | | | |l|m]; try done; destruct k.
Qed.

Lemma updateIn_on_list_inv c path (g : list value -> result value) c' :
  updateIn c path (on_list g) = Ok c' ->
  exists l u, getIn_ c path = VList l /\ g l = Ok u
              /\ resolves c path /\ c' = replaceIn c path u.
Proof.
  intros H. pose proof H as H'. unfold updateIn in H'.
  destruct (is_collection c) eqn:Hc; [|done].
  apply fmap_Ok_inv in H' as (o & Ho & _).
  apply updateInDeepMap_applied in Ho as (u & Hu).
  cbn [default from_option id] in Hu.
  destruct (getIn_ c path) as [| | | | |l|m] eqn:E; try done.
  cbn [on_list] in Hu.
  assert (resolves c path) as Hr.
  { apply getIn__defined_resolves. by rewrite E. }
  exists l, u. split_and!; try done.
  rewrite (updateIn_resolves _ c path u) in H; try done; [by simplify_eq|].
  by rewrite E.
Qed.

Lemma filterM_Ok_inv {A} (f : A -> result bool) l l' :
  filterM f l = Ok l' -> Forall (fun a => f a = Ok true) l'.
Proof.
  revert l'. induction l as [|a l IH]; intros l' H; simpl in H.
  - simplify_eq. constructor.
  - apply bind_Ok_inv in H as (b & Hb & H).
    apply bind_Ok_inv in H as (r & Hr & H). simplify_eq.
    destruct b; [constructor; [done|]|]; by apply IH.
Qed.

Lemma mapM_Ok_inv {A B} (f : A -> result B) l l' :
  mapM f l = Ok l' -> Forall2 (fun x y => f x = Ok y) l l'.
Proof.
  revert l'. induction l as [|a l IH]; intros l' H; simpl in H.
  - injection H as <-. constructor.
  - apply bind_Ok_inv in H as (b & Hb & H).
    apply bind_Ok_inv in H as (r & Hr & H). injection H as <-.
    constructor; [done|by apply IH].
Qed.

(** ** What sanitizing leaves *)

Lemma setJsxElementName_frame t nameAst t' q :
  setJsxElementName t nameAst = Ok t' ->
  diverge [KStr "openingElement"; KStr "name"] q ->
  diverge [KStr "closingElement"; KStr "name"] q ->
  getIn_ t' q = getIn_ t q.
Proof.
  unfold setJsxElementName, setIn. intros H HN HC.
  apply bind_Ok_inv in H as (selfClosing & _ & H).
  destruct (truthy selfClosing).
  - by apply (updateIn_frame _ _ _ _ q) in H.
  - apply bind_Ok_inv in H as (renamed & H1 & H2).
    apply (updateIn_frame _ _ _ _ q) in H1, H2; try done. congruence.
Qed.

Lemma setJsxElementName_collection t nameAst t' :
  setJsxElementName t nameAst = Ok t' -> is_collection t' = true.
Proof.
  unfold setJsxElementName, setIn. intros H.
  apply bind_Ok_inv in H as (selfClosing & _ & H).
  destruct (truthy selfClosing).
  - by apply updateIn_collection in H as [_ ?].
  - apply bind_Ok_inv in H as (renamed & _ & H).
    by apply updateIn_collection in H as [_ ?].
Qed.

Lemma rewriteDesignationToNamespaceSyntax_frame ast rewritten :
  rewriteDesignationToNamespaceSyntax ast = Ok rewritten ->
  is_collection rewritten = true
  /\ forall q,
       diverge [KStr "openingElement"; KStr "name"] q ->
       diverge [KStr "closingElement"; KStr "name"] q ->
       diverge [KStr "openingElement"; KStr "attributes"] q ->
       getIn_ rewritten q = getIn_ ast q.
Proof.
  unfold rewriteDesignationToNamespaceSyntax. intros H.
  apply bind_Ok_inv in H as (name & Hname & H).
  apply bind_Ok_inv in H as (designation & _ & H).
  apply bind_Ok_inv in H as (attribute & _ & H).
  destruct (truthy designation && truthy attribute).
  - apply bind_Ok_inv in H as (withNamespace & H1 & H2).
    unfold updateAttributes in H2. split.
    + by apply updateIn_collection in H2 as [_ ?].
    + intros q HN HC HA.
      apply (updateIn_frame _ _ _ _ q) in H2; [|done].
      rewrite H2. by apply (setJsxElementName_frame _ _ _ q) in H1.
  - simplify_eq. split; [|done]. by apply componentName_collection in Hname.
Qed.

Lemma value_descendants_ind (P : value -> Prop) :
  (forall v, (forall p, p <> [] -> resolves v p -> P (getIn_ v p)) -> P v) ->
  forall v, P v.
Proof.
  intros H v.
  assert (forall p, resolves v p -> P (getIn_ v p)) as Hv; [|apply (Hv [] I)].
  induction v as [v IH] using value_entries_ind.
  assert (forall p, p <> [] -> resolves v p -> P (getIn_ v p)) as Hbelow.
  { intros [|k rest] Hne Hr; [done|]. cbn [resolves getIn_] in *.
    destruct (lookup_raw v k) as [x|] eqn:E; [|done].
    apply lookup_raw_entries in E. rewrite Forall_forall in IH.
    apply (IH (k, x) E rest Hr). }
  intros [|k rest] Hr; [by apply H|]. by apply Hbelow.
Qed.

Lemma field_lookup_raw m k v :
  field m k = v -> v <> VUndef -> lookup_raw (VMap m) (KStr k) = Some v.
Proof.
  unfold field. cbn [lookup_raw]. destruct (map_lookup m (KStr k)); simpl; congruence.
Qed.

Lemma withSafeAttributesOnly_inv t safe :
  withSafeAttributesOnly t = Ok safe ->
  exists name l l',
    componentName t = Ok name
    /\ getIn_ t [KStr "openingElement"; KStr "attributes"] = VList l
    /\ Forall (fun a => attributeIsSafe name a = Ok true) l'
    /\ resolves t [KStr "openingElement"; KStr "attributes"]
    /\ safe = replaceIn t [KStr "openingElement"; KStr "attributes"] (VList l').
Proof.
  unfold withSafeAttributesOnly, updateAttributes. intros H.
  apply bind_Ok_inv in H as (name & Hname & H).
  apply updateIn_on_list_inv in H as (l & u & Hl & Hu & Hr & ->).
  apply fmap_Ok_inv in Hu as (l' & Hl' & ->).
  exists name, l, l'. split_and!; try done. by apply filterM_Ok_inv in Hl'.
Qed.

(** X4: Whatever [sanitize] returns has no attribute outside the allow-list
    on any element, at any depth of nesting of elements: what a
    translator is shown never carries a hidden attribute. *)
Theorem sanitize_hides (ast sanitized : value) :
  sanitize ast = Ok sanitized -> hides sanitized.
Proof.
  revert sanitized. induction ast as [ast IH] using value_descendants_ind.
  intros r H. destruct ast as [| | | | |l|m]; try done.
  cbn [sanitize] in H.
  destruct (value_eqb (field m "type") (VStr "Literal")) eqn:E1.
  { simplify_eq. apply hides_other. apply value_eqb_eq in E1. by rewrite E1. }
  destruct (value_eqb (field m "type") (VStr "CallExpression")) eqn:E2.
  { simplify_eq. apply hides_other. apply value_eqb_eq in E2. by rewrite E2. }
  destruct (value_eqb (field m "type") (VStr "XJSElement")) eqn:E3.
  - apply value_eqb_eq in E3. rewrite with_field_on_list in H.
    unfold sanitizeJsxElement in H.
    apply bind_Ok_inv in H as (rewritten & Hrw & H).
    apply bind_Ok_inv in H as (safe & Hsafe & H).
    apply rewriteDesignationToNamespaceSyntax_frame in Hrw as [Hcrw Hrw].
    apply withSafeAttributesOnly_inv in Hsafe
      as (name & attrs & attrs' & Hname & Hattrs & Hattrs' & RA & ->).
    set (A := [KStr "openingElement"; KStr "attributes"]) in *.
    set (safe := replaceIn rewritten A (VList attrs')) in *.
    assert (is_collection safe = true) as Hcs by by apply replaceIn_collection.
    pose proof H as H'. unfold update, updateIn in H'. rewrite Hcs in H'.
    apply fmap_Ok_inv in H' as (o & Ho & _).
    apply updateInDeepMap_applied in Ho as (u & Hu).
    destruct (field m "children") as [| | | | |children|] eqn:Hchildren; try done.
    cbn [on_list] in Hu, H.
    apply fmap_Ok_inv in Hu as (children' & Hmap & ->). rewrite Hmap in H.
    cbn [fmap result_fmap] in H.
    assert (forall q, diverge A q ->
                      diverge [KStr "openingElement"; KStr "name"] q ->
                      diverge [KStr "closingElement"; KStr "name"] q ->
                      getIn_ safe q = getIn_ (VMap m) q) as Hframe.
    { intros q HA HN HC. unfold safe.
      rewrite getIn__replaceIn_diverge by done. by apply Hrw. }
    assert (getIn_ safe [KStr "children"] = VList children) as Hsc.
    { rewrite Hframe by diverging. by rewrite getIn__field. }
    unfold update in H. rewrite (updateIn_resolves _ safe _ (VList children')) in H;
      try done; [|apply getIn__defined_resolves; by rewrite Hsc].
    simplify_eq.
    set (r := replaceIn safe [KStr "children"] (VList children')).
    assert (is_collection r = true) as Hcr by by apply replaceIn_collection.
    assert (getIn_ r [KStr "type"] = VStr "XJSElement") as Ht.
    { unfold r. rewrite getIn__replaceIn_diverge by diverging.
      rewrite Hframe by diverging. by rewrite getIn__field. }
    apply type_VMap in Ht as (m' & Hm' & Ht).
    assert (getIn_ r [KStr "children"] = VList children') as Hrc.
    { apply getIn__replaceIn_same. apply getIn__defined_resolves. by rewrite Hsc. }
    change (hides r). rewrite Hm'. apply (hides_XJSElement m' children'); try done.
    + rewrite <- Hm'. unfold hasUnsafeAttributes, attributes, getIn.
      rewrite (componentName_agree rewritten r name); try done;
        [|unfold r, safe; by rewrite !getIn__replaceIn_diverge by diverging].
      cbn [mbind result_bind]. rewrite Hcr.
      fold A. assert (getIn_ r A = VList attrs') as ->.
      { unfold r. rewrite getIn__replaceIn_diverge by diverging.
        by apply getIn__replaceIn_same. }
      cbn [mbind result_bind on_list]. apply someM_none.
      eapply Forall_impl; [exact Hattrs'|]. intros a Ha. simpl. by rewrite Ha.
    + rewrite Hm' in Hrc. by rewrite getIn__field in Hrc.
    + apply mapM_Ok_inv in Hmap. apply Forall_forall. intros c' Hc'.
      apply list_elem_of_lookup in Hc' as (i & Hi).
      destruct (Forall2_lookup_r _ _ _ _ _ Hmap Hi) as (c & Hc & Hsan).
      refine (IH [KStr "children"; KIdx i] _ _ c' _); [done| |].
      * cbn [resolves]. rewrite (field_lookup_raw m "children" (VList children)) by done.
        cbn [lookup_raw]. by rewrite Hc.
      * cbn [getIn_]. rewrite (field_lookup_raw m "children" (VList children)) by done.
        cbn [lookup_raw]. by rewrite Hc.
  - destruct (value_eqb (field m "type") (VStr "XJSExpressionContainer")) eqn:E4.
    + apply value_eqb_eq in E4. unfold sanitizeJsxExpressionContainer in H.
      apply bind_Ok_inv in H as (expression & _ & H).
      apply bind_Ok_inv in H as ([name e] & _ & H).
      apply bind_Ok_inv in H as (literal & _ & H).
      unfold set in H. cbn [is_collection coll_set] in H. simplify_eq.
      apply hides_other. unfold field.
      rewrite map_lookup_set_other by done. fold (field m "type"). by rewrite E4.
    + destruct (value_eqb (field m "type") (VStr "XJSEmptyExpression")) eqn:E5;
        [|done].
      simplify_eq. apply hides_other. apply value_eqb_eq in E5. by rewrite E5.
Qed.

(** ** The designation of an element *)

Lemma attributeName_collection a :
  is_collection a = true -> attributeName a = Ok (getIn_ a [KStr "name"; KStr "name"]).
Proof. unfold attributeName, getIn. by intros ->. Qed.

Lemma filterM_not_designation attrs :
  Forall (fun a => is_collection a = true) attrs ->
  filterM (fun a => n ← attributeName a;
                    Ok (negb (value_eqb n (VStr "i18n-designation")))) attrs
  = Ok (List.filter (fun a => negb (isDesignationAttribute a)) attrs).
Proof.
  intros H. apply filterM_Ok. eapply Forall_impl; [exact H|].
  intros a Ha. simpl. by rewrite attributeName_collection.
Qed.

Lemma filterM_designation attrs :
  Forall (fun a => is_collection a = true) attrs ->
  filterM (fun a => n ← attributeName a;
                    Ok (value_eqb n (VStr "i18n-designation"))) attrs
  = Ok (List.filter isDesignationAttribute attrs).
Proof.
  intros H. apply filterM_Ok. eapply Forall_impl; [exact H|].
  intros a Ha. simpl. by rewrite attributeName_collection.
Qed.

Lemma filter_filter_negb {A} (f : A -> bool) l :
  List.filter f (List.filter (fun a => negb (f a)) l) = [].
Proof.
  induction l as [|a l IH]; [done|]. simpl.
  destruct (f a) eqn:E; simpl; [done|]. by rewrite E.
Qed.

Lemma Forall_filter_collection (f : value -> bool) l :
  Forall (fun a => is_collection a = true) l ->
  Forall (fun a => is_collection a = true) (List.filter f l).
Proof.
  induction 1 as [|a l Ha _ IH]; [constructor|]. simpl.
  destruct (f a); [by constructor|done].
Qed.

(** X5: An element that carries its designation in the [i18n-designation]
    attribute is rewritten to the namespace form: its name becomes
    [name:designation], in the opening and, unless it is self-closing,
    the closing tag; the [i18n-designation] attributes are dropped and
    the other attributes kept in their order; nothing else changes, and
    the element returned has no [i18n-designation] attribute. *)
Theorem rewriteDesignationToNamespaceSyntax_attribute (t : value)
    (name : string) (designation attribute selfClosing : value)
    (attrs : list value) :
  componentName t = Ok name ->
  componentDesignation t = Ok designation -> truthy designation = true ->
  attributeWithName t "i18n-designation" = Ok attribute ->
  truthy attribute = true ->
  getIn_ t [KStr "openingElement"; KStr "attributes"] = VList attrs ->
  Forall (fun a => is_collection a = true) attrs ->
  getIn_ t [KStr "openingElement"; KStr "selfClosing"] = selfClosing ->
  (truthy selfClosing = false -> resolves t [KStr "closingElement"; KStr "name"]) ->
  exists r,
    rewriteDesignationToNamespaceSyntax t = Ok r
    /\ getIn_ r [KStr "openingElement"; KStr "name"]
       = namespacedName designation name
    /\ (truthy selfClosing = false ->
        getIn_ r [KStr "closingElement"; KStr "name"]
        = namespacedName designation name)
    /\ getIn_ r [KStr "openingElement"; KStr "attributes"]
       = VList (List.filter (fun a => negb (isDesignationAttribute a)) attrs)
    /\ (forall q,
          diverge [KStr "openingElement"; KStr "name"] q ->
          diverge [KStr "closingElement"; KStr "name"] q ->
          diverge [KStr "openingElement"; KStr "attributes"] q ->
          getIn_ r q = getIn_ t q)
    /\ attributeWithName r "i18n-designation" = Ok VUndef.
Proof.
  intros Hname Hdes Htd Hattr Hta Hattrs Hcoll Hself Hclosing.
  pose proof (componentName_collection _ _ Hname) as Hc.
  assert (resolves t [KStr "openingElement"; KStr "name"]) as RN.
  { unfold componentName in Hname. apply bind_Ok_inv in Hname as (c & Hc' & _).
    by apply componentNameAst_resolves in Hc'. }
  assert (resolves t [KStr "openingElement"; KStr "attributes"]) as RA.
  { apply getIn__defined_resolves. by rewrite Hattrs. }
  set (A := [KStr "openingElement"; KStr "attributes"]) in *.
  set (N := [KStr "openingElement"; KStr "name"]) in *.
  set (C := [KStr "closingElement"; KStr "name"]) in *.
  set (S := [KStr "openingElement"; KStr "selfClosing"]) in *.
  set (nn := namespacedName designation name).
  set (t1 := replaceIn t N nn).
  set (t2 := if truthy selfClosing then t1 else replaceIn t1 C nn).
  assert (is_collection t1 = true) as Hc1 by by apply replaceIn_collection.
  assert (setJsxElementName t nn = Ok t2) as H2.
  { unfold setJsxElementName, getIn. rewrite Hc. cbn [mbind result_bind].
    fold S N. rewrite Hself. unfold t2. destruct (truthy selfClosing) eqn:Es.
    - by apply setIn_resolves.
    - rewrite (setIn_resolves t) by done. cbn [mbind result_bind]. fold C t1.
      apply setIn_resolves; [done|].
      apply resolves_replaceIn_diverge; [diverging|]. by apply Hclosing. }
  assert (is_collection t2 = true) as Hc2.
  { unfold t2. destruct (truthy selfClosing); [done|]. by apply replaceIn_collection. }
  assert (getIn_ t2 A = VList attrs) as HA2.
  { unfold t2. destruct (truthy selfClosing);
      rewrite ?(getIn__replaceIn_diverge _ C) by diverging;
      unfold t1; by rewrite getIn__replaceIn_diverge by diverging. }
  assert (resolves t2 A) as RA2.
  { apply getIn__defined_resolves. by rewrite HA2. }
  set (kept := List.filter (fun a => negb (isDesignationAttribute a)) attrs).
  set (r := replaceIn t2 A (VList kept)).
  assert (is_collection r = true) as Hcr by by apply replaceIn_collection.
  exists r. split_and!.
  - unfold rewriteDesignationToNamespaceSyntax. rewrite Hname, Hdes, Hattr.
    cbn [mbind result_bind]. rewrite Htd, Hta. cbn [andb].
    fold (namespacedName designation name). fold nn. rewrite H2.
    cbn [mbind result_bind]. unfold updateAttributes.
    apply updateIn_resolves; try done. fold A. rewrite HA2. cbn [on_list].
    by rewrite filterM_not_designation.
  - unfold r. rewrite getIn__replaceIn_diverge by diverging.
    unfold t2. destruct (truthy selfClosing);
      rewrite ?(getIn__replaceIn_diverge _ C) by diverging;
      by apply getIn__replaceIn_same.
  - intros Es. unfold r. rewrite getIn__replaceIn_diverge by diverging.
    unfold t2. rewrite Es. apply getIn__replaceIn_same.
    apply resolves_replaceIn_diverge; [diverging|]. by apply Hclosing.
  - by apply getIn__replaceIn_same.
  - intros q HN HC HA. unfold r. rewrite getIn__replaceIn_diverge by done.
    unfold t2. destruct (truthy selfClosing);
      rewrite ?(getIn__replaceIn_diverge _ C) by done;
      unfold t1; by rewrite getIn__replaceIn_diverge by done.
  - unfold attributeWithName, attributes, getIn. rewrite Hcr.
    cbn [mbind result_bind]. fold A. unfold r.
    rewrite getIn__replaceIn_same by done. cbn [on_list].
    rewrite filterM_designation by by apply Forall_filter_collection.
    unfold kept. by rewrite filter_filter_negb.
Qed.

(** ** Attribute maps *)

Lemma attributePairs_nodes (m : amap) : attributePairs (map attributeNode m) = m.
Proof.
  unfold attributePairs. rewrite map_map. rewrite <- (map_id m) at 2.
  apply map_ext. by intros [k v].
Qed.

(** X6: The attribute list built from an attribute map reads back as the
    map: [attributeMap] undoes [attributesFromMap]. *)
Theorem attributeMap_attributesFromMap (m : amap) :
  NoDup (m.*1) ->
  attributeMap (attributesFromMap m) = Ok m
  /\ (forall k, amap_get m k <> VUndef ->
        exists a, a ∈ map attributeNode m
                  /\ getIn_ a [KStr "name"] = k
                  /\ getIn_ a [KStr "value"] = amap_get m k).
Proof.
  intros Hm. split.
  - rewrite attributesFromMap_nodes, attributeMap_collections.
    + by rewrite attributePairs_nodes, amap_of_pairs_NoDup.
    + apply Forall_forall. by intros a (e & -> & _)%list_elem_of_fmap.
  - intros k Hk. clear Hm. induction m as [|[k' v] m IH]; [done|].
    simpl in Hk |- *. destruct (value_eqb k k') eqn:E.
    + apply value_eqb_eq in E. subst. exists (attributeNode (k', v)).
      split; [left|done].
    + destruct (IH Hk) as (a & Ha & Hn & Hv). exists a.
      split; [by right|done].
Qed.

(** ** Finding and extracting messages *)

Lemma forEachM_Ok_inv {A B} (f : A -> result B) l :
  forEachM f l = Ok tt -> Forall (fun x => exists y, f x = Ok y) l.
Proof.
  induction l as [|a l IH]; intros H; simpl in H; [constructor|].
  apply bind_Ok_inv in H as (y & Hy & H). constructor; [by exists y|by apply IH].
Qed.


(** X7: When [keypathsForMessageNodesInAst] returns, it returns the keypaths
    of the markers among the keypaths of the tree, in their order, and
    every string marker among them has a string literal for its first
    argument and, when its arguments are a list, no other argument; its
    key is the value of that literal. *)
Theorem keypathsForMessageNodesInAst_markers (ast : value)
    (keypaths : list Keypath) :
  keypathsForMessageNodesInAst ast = Ok keypaths ->
  (exists all,
     allKeypathsInAst ast = Ok all
     /\ keypaths = List.filter (fun keypath => isMarker (getIn_ ast keypath)) all)
  /\ forall keypath,
       keypath ∈ keypaths -> isStringMarker (getIn_ ast keypath) = true ->
       let marker := getIn_ ast keypath in
       isStringLiteral (getIn_ marker [KStr "arguments"; KIdx 0]) = true
       /\ (forall arguments,
             getIn_ marker [KStr "arguments"] = VList arguments ->
             length arguments = 1)
       /\ exists text,
            getIn_ marker [KStr "arguments"; KIdx 0; KStr "value"] = VStr text
            /\ generateMessage marker = Ok (VStr text).
Proof.
  intros H. unfold keypathsForMessageNodesInAst in H.
  apply bind_Ok_inv in H as (all & Hall & H).
  apply bind_Ok_inv in H as ([] & Heach & H). injection H as <-.
  split; [by exists all|].
  intros keypath Hin Hmarker marker.
  apply forEachM_Ok_inv in Heach. rewrite Forall_forall in Heach.
  destruct (Heach keypath Hin) as ([] & Hk). clear Heach.
  apply bind_Ok_inv in Hk as (messageMarker & Hget & Hk).
  unfold getIn in Hget. destruct (is_collection ast); [|done].
  injection Hget as <-. fold marker in Hmarker, Hk. rewrite Hmarker in Hk.
  apply bind_Ok_inv in Hk as (arguments & Hargs & Hk).
  apply bind_Ok_inv in Hk as (size & Hsize & Hk).
  apply bind_Ok_inv in Hk as ([] & Hone & Hk).
  apply bind_Ok_inv in Hk as (argument & Harg & Hk).
  destruct (isMarker_VMap marker) as (m & Hm);
    [unfold isMarker; by rewrite Hmarker|].
  rewrite Hm in *. unfold getIn in Harg. cbn [is_collection] in Harg.
  assert (argument = getIn_ (VMap m) [KStr "arguments"; KIdx 0]) as ->
    by congruence.
  destruct (isStringLiteral (getIn_ (VMap m) [KStr "arguments"; KIdx 0])) eqn:Hlit;
    [|by apply bind_Ok_inv in Hk as (? & _ & ?)].
  split; [done|]. split.
  - intros l Hl. rewrite get_VMap in Hargs. rewrite getIn__field in Hl.
    cbn [getIn_] in Hl. simplify_eq. rewrite Hl in Hsize. simplify_eq.
    destruct (bool_decide (Some (length l) = Some 1)) eqn:E.
    + apply bool_decide_eq_true in E. by simplify_eq.
    + by apply bind_Ok_inv in Hone as (? & _ & ?).
  - apply isStringLiteral_value in Hlit as (m' & text & Hm' & Htext).
    exists text.
    assert (getIn_ (VMap m) [KStr "arguments"; KIdx 0; KStr "value"] = VStr text)
      as Hv.
    { change [KStr "arguments"; KIdx 0; KStr "value"]
        with ([KStr "arguments"; KIdx 0] ++ [KStr "value"]).
      rewrite getIn__app, Hm'. by rewrite getIn__field. }
    split; [done|]. unfold generateMessage. rewrite Hmarker.
    unfold getIn. cbn [is_collection]. by rewrite Hv.
Qed.




(** ** Substituting a translation *)

Lemma namedExpressionDefinitions_other_type ast t :
  getIn_ ast [KStr "type"] = VStr t ->
  t <> "XJSElement" -> t <> "XJSExpressionContainer" ->
  namedExpressionDefinitions ast = Ok [].
Proof.
  intros (m & -> & Ht)%type_VMap H1 H2.
  unfold namedExpressionDefinitions. cbn [_namedExpressionDefinitions].
  rewrite Ht.
  assert (value_eqb (VStr t) (VStr "XJSElement") = false) as ->
    by (apply value_eqb_neq; congruence).
  assert (value_eqb (VStr t) (VStr "XJSExpressionContainer") = false) as ->
    by (apply value_eqb_neq; congruence).
  done.
Qed.

Lemma substitute_string_marker_Ok (translations : gmap string string)
    (cur : value) (keypath : Keypath) (key : value) (translation : string)
    (program literal : value) :
  is_collection cur = true -> resolves cur keypath ->
  isStringMarker (getIn_ cur keypath) = true ->
  getIn_ cur (keypath ++ [KStr "arguments"; KIdx 0; KStr "value"]) = key ->
  translations !! ToString key = Some translation -> translation <> "" ->
  esprima_parse (JSON_stringify translation) = Ok program ->
  is_collection program = true ->
  getIn_ program [KStr "body"; KIdx 0; KStr "expression"] = literal ->
  getIn_ literal [KStr "type"] = VStr "Literal" ->
  substitute translations cur keypath = Ok (replaceIn cur keypath literal).
Proof.
  intros Hc Hr Hmarker Hkey Hfound Hne Hparse Hcp Hliteral Htype.
  set (message := getIn_ cur keypath) in *.
  rewrite getIn__app in Hkey. fold message in Hkey.
  destruct (isMarker_VMap message) as (m & Hm);
    [unfold isMarker; by rewrite Hmarker|].
  assert (sanitize message ≫= generateMessage = Ok key) as Hgen.
  { rewrite sanitize_CallExpression by by apply isStringMarker_type.
    cbn [mbind result_bind]. unfold generateMessage. rewrite Hmarker.
    unfold getIn. rewrite Hm. cbn [is_collection]. rewrite <- Hm.
    by rewrite Hkey. }
  unfold substitute, getIn. rewrite Hc. cbn [annotate mbind result_bind].
  fold message. rewrite Hgen.
  cbn [annotate mbind result_bind]. unfold property_of. rewrite Hfound.
  cbv zeta. cbn [truthy].
  apply String.eqb_neq in Hne. rewrite Hne. cbn [negb].
  unfold prepareTranslationForParsing. rewrite Hmarker.
  cbn [annotate mbind result_bind ToString].
  unfold parseFragment, parse. rewrite Hparse. cbn [mbind result_bind].
  unfold getIn at 1. rewrite Hcp, Hliteral. cbn [mbind result_bind].
  unfold validateTranslation.
  rewrite (namedExpressionDefinitions_other_type literal "Literal") by done.
  cbn [mbind result_bind]. unfold reconstitute.
  rewrite (namedExpressionDefinitions_other_type message "CallExpression");
    [|by apply isStringMarker_type|done|done].
  cbn [mbind result_bind].
  apply type_VMap in Htype as (l & Hl & Htype).
  rewrite Hl at 1. cbn [_reconstitute]. rewrite Htype.
  change (value_eqb (VStr "Literal") (VStr "Identifier")) with false.
  change (value_eqb (VStr "Literal") (VStr "Literal")) with true.
  cbn iota. cbn [mbind result_bind]. rewrite <- Hl.
  rewrite setIn_resolves by done. done.
Qed.

(** X9: The translation of a string message: when the table has a non-empty
    translation for the key of the string marker at the keypath, and the
    quoted translation parses to a literal, [substitute] puts that
    literal in the place of the marker and changes nothing else. *)
Theorem substitute_string_marker (translations : gmap string string)
    (cur : value) (keypath : Keypath) (key : value) (translation : string)
    (program literal : value) :
  is_collection cur = true -> resolves cur keypath ->
  isStringMarker (getIn_ cur keypath) = true ->
  getIn_ cur (keypath ++ [KStr "arguments"; KIdx 0; KStr "value"]) = key ->
  translations !! ToString key = Some translation -> translation <> "" ->
  esprima_parse (JSON_stringify translation) = Ok program ->
  is_collection program = true ->
  getIn_ program [KStr "body"; KIdx 0; KStr "expression"] = literal ->
  getIn_ literal [KStr "type"] = VStr "Literal" ->
  substitute translations cur keypath = Ok (replaceIn cur keypath literal)
  /\ getIn_ (replaceIn cur keypath literal) keypath = literal
  /\ forall q, diverge keypath q ->
               getIn_ (replaceIn cur keypath literal) q = getIn_ cur q.
Proof.
  intros Hc Hr Hmarker Hkey Hfound Hne Hparse Hcp Hliteral Htype. split_and!.
  - by apply (substitute_string_marker_Ok _ _ _ key translation program).
  - by apply getIn__replaceIn_same.
  - intros q Hq. by apply getIn__replaceIn_diverge.
Qed.

Lemma bind_Throw_inv {A B} (r : result A) (f : A -> result B) t :
  r ≫= f = Throw t -> r = Throw t \/ exists x, r = Ok x /\ f x = Throw t.
Proof.
  destruct r as [x|t']; simpl; intros H; [right; by exists x|left; congruence].
Qed.

Lemma annotate_Throw_inv {A} message translation (r : result A) e :
  annotate message translation r = Throw (ThrowValue e) -> isMap e = true ->
  exists m, e = VMap m
            /\ field m "messageAst" = message
            /\ field m "translationString" = translation.
Proof.
  destruct r as [x|[e'|err]]; try done. cbn [annotate]. intros [= <-] He.
  destruct e' as [| | | | |l|m']; try done. cbn [is_collection coll_set] in *.
  eexists. split; [done|]. unfold field.
  rewrite map_lookup_set_other, !map_lookup_set_same by done. done.
Qed.

Lemma annotate_bind_Throw_inv {A B} message translation (r : result A)
    (f : A -> result B) t :
  annotate message translation r ≫= f = Throw t ->
  annotate message translation r = Throw t
  \/ exists x, r = Ok x /\ f x = Throw t.
Proof.
  intros [H|(x & Hx & H)]%bind_Throw_inv; [by left|right].
  exists x. split; [|done]. by apply annotate_Ok_inv in Hx.
Qed.

Lemma substitute_Throw_inv (translations : gmap string string)
    (cur : value) (keypath : Keypath) (e : value) :
  substitute translations cur keypath = Throw (ThrowValue e) ->
  isMap e = true ->
  exists m, e = VMap m /\ field m "messageAst" = getIn_ cur keypath.
Proof.
  unfold substitute. intros H He.
  apply annotate_bind_Throw_inv in H as [H|(message & Hmessage & H)].
  { unfold getIn in H. by destruct (is_collection cur). }
  assert (message = getIn_ cur keypath) as Hm.
  { unfold getIn in Hmessage. destruct (is_collection cur); [congruence|done]. }
  assert (forall A translation (r : result A),
             annotate message translation r = Throw (ThrowValue e) ->
             exists m, e = VMap m /\ field m "messageAst" = getIn_ cur keypath)
    as Hstage.
  { intros A translation r Hr.
    apply annotate_Throw_inv in Hr as (m & -> & H1 & _); [|done].
    exists m. split; [done|congruence]. }
  apply annotate_bind_Throw_inv in H as [H|(key & Hkey & H)];
    [by apply Hstage in H|].
  destruct (property_of translations (ToString key)) as [s|name|]; cbv zeta in H.
  - destruct (negb (truthy (VStr s))); [by apply Hstage in H|].
    apply annotate_bind_Throw_inv in H as [H|(prepared & Hprepared & H)];
      by apply Hstage in H.
  - apply bind_Throw_inv in H as [H|(prepared & Hprepared & H)];
      [|by apply Hstage in H].
    unfold prepareInheritedForParsing in H.
    by destruct (isStringMarker message), (isElementMarker message).
  - by apply Hstage in H.
Qed.

(** X10: Every input error that [substitute] raises carries the message it
    fetched at the keypath, and for translation string nothing, the
    translation found in the table, or what was found, a translation of
    the table or a property the table inherits from [Object.prototype],
    as prepared for parsing. *)
Theorem substitute_error_carries_message (translations : gmap string string)
    (cur : value) (keypath : Keypath) (e : value) :
  substitute translations cur keypath = Throw (ThrowValue e) ->
  isMap e = true ->
  exists m,
    e = VMap m
    /\ field m "messageAst" = getIn_ cur keypath
    /\ (field m "translationString" = VUndef
        \/ (exists key translation,
              translations !! key = Some translation
              /\ (field m "translationString" = VStr translation
                  \/ exists prepared,
                       prepareTranslationForParsing translation
                         (getIn_ cur keypath) = Ok prepared
                       /\ field m "translationString" = VStr prepared))
        \/ (exists name prepared,
              name ∈ Object_prototype
              /\ prepareInheritedForParsing name (getIn_ cur keypath)
                 = Ok prepared
              /\ field m "translationString" = prepared)).
Proof.
  unfold substitute. intros H He.
  apply annotate_bind_Throw_inv in H as [H|(message & Hmessage & H)].
  { unfold getIn in H. by destruct (is_collection cur). }
  assert (message = getIn_ cur keypath) as Hm.
  { unfold getIn in Hmessage. destruct (is_collection cur); [congruence|done]. }
  apply annotate_bind_Throw_inv in H as [H|(key & Hkey & H)].
  { apply annotate_Throw_inv in H as (m & -> & H1 & H2); [|done].
    exists m. split_and!; [done|congruence|by left]. }
  unfold property_of in H.
  destruct (translations !! ToString key) as [translation|] eqn:Hfound;
    cbv zeta in H; cbn [truthy] in H.
  - destruct (negb (negb (String.eqb translation ""))).
    + apply annotate_Throw_inv in H as (m & -> & H1 & H2); [|done].
      exists m. split_and!; [done|congruence|right; left].
      exists (ToString key), translation. split; [done|by left].
    + cbn [ToString] in H.
      apply annotate_bind_Throw_inv in H as [H|(prepared & Hprepared & H)].
      * apply annotate_Throw_inv in H as (m & -> & H1 & H2); [|done].
        exists m. split_and!; [done|congruence|right; left].
        exists (ToString key), translation. split; [done|by left].
      * apply annotate_Throw_inv in H as (m & -> & H1 & H2); [|done].
        exists m. split_and!; [done|congruence|right; left].
        exists (ToString key), translation. split; [done|right].
        exists prepared. split; [congruence|done].
  - destruct (bool_decide (ToString key ∈ Object_prototype)) eqn:Hin.
    + apply bool_decide_eq_true_1 in Hin.
      apply bind_Throw_inv in H as [H|(prepared & Hprepared & H)].
      { unfold prepareInheritedForParsing in H.
        by destruct (isStringMarker message), (isElementMarker message). }
      apply annotate_Throw_inv in H as (m & -> & H1 & H2); [|done].
      exists m. split_and!; [done|congruence|right; right].
      exists (ToString key), prepared. split_and!; [done|congruence|done].
    + cbn [negb] in H.
      apply annotate_Throw_inv in H as (m & -> & H1 & H2); [|done].
      exists m. split_and!; [done|congruence|by left].
Qed.

(** ** The rest of the document *)

(** X11: [translateMessagesInAst] changes nothing beside the messages: a node
    whose keypath leaves the keypath of every message at some key is in
    the translated document what it is in the original; a document
    without messages is returned as it is. *)
Theorem translateMessagesInAst_frame (ast : value)
    (translations : gmap string string) (keypaths : list Keypath)
    (translatedAst : value) :
  keypathsForMessageNodesInAst ast = Ok keypaths ->
  translateMessagesInAst ast translations = Ok translatedAst ->
  (forall q, (forall keypath, keypath ∈ keypaths -> diverge keypath q) ->
             getIn_ translatedAst q = getIn_ ast q)
  /\ (keypaths = [] -> translatedAst = ast).
Proof.
  intros Hkeypaths H. unfold translateMessagesInAst in H. rewrite Hkeypaths in H.
  cbn [mbind result_bind] in H. fold (run translations keypaths ast) in H.
  split.
  - intros q Hq. by apply (run_agree translations keypaths).
  - intros ->. cbn in H. congruence.
Qed.

(** ** Named expressions *)

Lemma isSimpleMemberExpression_pattern ast :
  isSimpleMemberExpression ast = matcher simpleMemberExpressionPattern ast.
Proof.
  destruct ast as [| | | | |l|m]; try done.
  unfold matcher, simpleMemberExpressionPattern. cbn [matches isSimpleMemberExpression].
  rewrite andb_true_r, <- !andb_assoc. do 2 f_equal.
  rewrite with_field_lookup. unfold field.
  destruct (map_lookup m (KStr "object")); done.
Qed.

Lemma isIdentifier_type ast :
  isIdentifier ast = true <-> getIn_ ast [KStr "type"] = VStr "Identifier".
Proof.
  unfold isIdentifier, matcher. rewrite matches_PMap_cons, matches_PMap_nil.
  cbn [matches]. rewrite literal_field_isMap by done.
  rewrite value_eqb_eq. split; congruence.
Qed.

(** X12: [isNamedExpression] accepts the identifiers and the chains of
    non-computed member accesses that start at an identifier and whose
    properties are identifiers, and nothing else. *)
Theorem isNamedExpression_named (ast : value) :
  isNamedExpression ast = true <-> named ast.
Proof.
  split.
  - induction ast as [| | | | |l _|m IH] using value_ind; try done.
    unfold isNamedExpression. intros [H|H]%orb_true_iff.
    + apply named_Identifier. apply isIdentifier_type in H.
      by rewrite getIn__field in H.
    + cbn [isSimpleMemberExpression] in H.
      apply andb_true_iff in H as [H Hproperty].
      apply andb_true_iff in H as [H Hobject].
      apply andb_true_iff in H as [Htype Hcomputed].
      apply value_eqb_eq in Htype, Hcomputed.
      rewrite with_field_lookup in Hobject.
      destruct (map_lookup m (KStr "object")) as [o|] eqn:Ho; [|done].
      apply named_MemberExpression; try done.
      * unfold field. rewrite Ho. cbn [default from_option id].
        assert (forall k v, map_lookup m k = Some v -> (k, v) ∈ m) as Hin.
        { clear. induction m as [|[k' v'] m IHm]; intros k v H; [done|].
          simpl in H. destruct (key_eqb k k') eqn:E.
          - apply key_eqb_eq in E. simplify_eq. left.
          - right. by apply IHm. }
        apply Hin in Ho. rewrite Forall_forall in IH.
        apply (IH _ Ho). exact Hobject.
      * by apply isIdentifier_type.
  - induction 1 as [m Ht|m Ht Hc Ho IH Hp]; unfold isNamedExpression.
    + apply orb_true_iff. left. apply isIdentifier_type. by rewrite getIn__field.
    + apply orb_true_iff. right. cbn [isSimpleMemberExpression].
      rewrite Ht, Hc. rewrite with_field_lookup.
      apply isIdentifier_type in Hp. rewrite Hp, andb_true_r.
      unfold field in Ho, IH.
      destruct (map_lookup m (KStr "object")) as [o|]; [exact IH|].
      by inversion Ho.
Qed.

(** ** Messages that validation rejects *)



(** X14: A message marker with a message marker among its children is
    rejected: validating it raises the input error about directly nested
    [<I18N>] tags, with the printed message. *)
Theorem validateMessage_nested_markers (ast : value)
    (defs : amap) (children : list value) (printed : string) :
  isElementMarker ast = true ->
  namedExpressionDefinitions ast = Ok defs ->
  hasUnsafeAttributes ast = Ok false ->
  getIn_ ast [KStr "children"] = VList children ->
  existsb isElementMarker children = true ->
  generate ast = Ok printed ->
  validateMessage ast
  = throwInputError ("Don't directly nest <I18N> tags: " +:+ printed).
Proof.
  intros Hmarker Hdefs Hsafe Hchildren Hnested Hprinted.
  rewrite validateMessage_element by by apply isElementMarker_type.
  unfold validateJsxElement. rewrite Hdefs, Hsafe. cbn [mbind result_bind].
  rewrite Hmarker. rewrite get_getIn_ by by apply generate_Ok_collection in Hprinted.
  cbn [mbind result_bind]. rewrite Hchildren. cbn [on_list mbind result_bind].
  rewrite Hnested, Hprinted. done.
Qed.

(** ** What reconstituting returns *)





(** ** Reporting the errors of the driver *)

Lemma string_append_assoc (a b c : string) : a +:+ b +:+ c = (a +:+ b) +:+ c.
Proof. induction a as [|x a IH]; [done|]. by rewrite !append_cons, IH. Qed.

Ltac find_part :=
  repeat first
    [ apply includes_refl
    | (apply includes_prefix; apply prefix_append)
    | apply includes_append_l ].

(** X16: The report of an input error that [substitute] raised for a message
    that prints: [errorMessageForError] returns a text with the line of
    the message, the printed message and the description of the error. *)
Theorem substitute_error_report (translations : gmap string string)
    (cur : value) (keypath : Keypath) (e : value) (printed : string) :
  substitute translations cur keypath = Throw (ThrowValue e) ->
  isInputError (ThrowValue e) = true ->
  generate (getIn_ cur keypath) = Ok printed ->
  exists text,
    errorMessageForError (ThrowValue e) = Ok (VStr text)
    /\ includes
         ("On line "
          +:+ ToString (getIn_ cur (keypath ++ [KStr "loc"; KStr "start"; KStr "line"])))
         text = true
    /\ includes printed text = true
    /\ includes (ToString (getIn_ e [KStr "description"])) text = true.
Proof.
  intros H Hinput Hprinted.
  apply substitute_Throw_inv in H as (m & -> & Hmessage);
    [|by destruct e].
  pose proof (generate_Ok_collection _ _ Hprinted) as Hc.
  unfold errorMessageForError. rewrite Hinput, !get_VMap.
  cbn [mbind result_bind]. rewrite Hmessage.
  assert (truthy (getIn_ cur keypath) = true) as -> by by destruct (getIn_ cur keypath).
  unfold getIn. rewrite Hc, Hprinted. rewrite getIn__app, getIn__field.
  cbn [andb mbind result_bind].
  destruct (truthy (field m "translationString")); eexists;
    (split; [reflexivity|]); split_and!;
    try (apply includes_append_l; rewrite string_append_assoc;
         apply includes_prefix, prefix_append);
    find_part.
Qed.

(** ** Translating a document of string messages *)

Lemma substituted_frame literal ast keypaths q :
  (forall k, k ∈ keypaths -> diverge k q) ->
  getIn_ (substituted literal ast keypaths) q = getIn_ ast q
  /\ (resolves ast q -> resolves (substituted literal ast keypaths) q).
Proof.
  induction keypaths as [|k l IH]; intros Hd; [done|].
  destruct IH as [IH1 IH2]; [intros k' Hk'; apply Hd; by right|].
  assert (diverge k q) as Hk by (apply Hd; left).
  cbn [substituted foldr]. fold (substituted literal ast l). split.
  - by rewrite getIn__replaceIn_diverge.
  - intros Hr. apply resolves_replaceIn_diverge; [done|by apply IH2].
Qed.

Lemma substituted_collection literal ast keypaths :
  is_collection ast = true -> [] ∉ keypaths ->
  is_collection (substituted literal ast keypaths) = true.
Proof.
  intros Hc. induction keypaths as [|k l IH]; intros Hne; [done|].
  apply not_elem_of_cons in Hne as [Hk Hl].
  cbn [substituted foldr]. apply replaceIn_collection; [done|by apply IH].
Qed.

(** X17: A document all of whose messages are string markers, none inside
    another, each with a non-empty translation in the table whose quoted
    form parses to a literal, is translated as a whole:
    [translateMessagesInAst] returns the document with the literal of
    every message in the place of its marker, and in the translated
    document every message keypath leads to its literal. *)
Theorem translateMessagesInAst_string_markers (ast : value)
    (translations : gmap string string) (keypaths : list Keypath)
    (literal : Keypath -> value) :
  wf_value ast ->
  keypathsForMessageNodesInAst ast = Ok keypaths ->
  Forall (fun keypath => isStringMarker (getIn_ ast keypath) = true) keypaths ->
  (forall k k', k ∈ keypaths -> k' ∈ keypaths -> k `prefix_of` k' -> k = k') ->
  (forall keypath, keypath ∈ keypaths ->
     exists translation program,
       translations
         !! ToString (getIn_ ast (keypath ++ [KStr "arguments"; KIdx 0; KStr "value"]))
       = Some translation
       /\ translation <> ""
       /\ esprima_parse (JSON_stringify translation) = Ok program
       /\ is_collection program = true
       /\ getIn_ program [KStr "body"; KIdx 0; KStr "expression"] = literal keypath
       /\ getIn_ (literal keypath) [KStr "type"] = VStr "Literal") ->
  translateMessagesInAst ast translations = Ok (substituted literal ast keypaths)
  /\ forall keypath, keypath ∈ keypaths ->
       getIn_ (substituted literal ast keypaths) keypath = literal keypath.
Proof.
  intros Hwf Hkeypaths Hmarkers Hflat Htable.
  destruct (message_keypaths _ _ Hwf Hkeypaths) as (Hc & Hsorted & Hk).
  unfold translateMessagesInAst. rewrite Hkeypaths. cbn [mbind result_bind].
  fold (run translations keypaths ast).
  clear Hkeypaths. rewrite Forall_forall in Hmarkers.
  assert (forall k, k ∈ keypaths -> resolves ast k) as Hresolves.
  { intros k Hin. apply getIn__defined_resolves.
    destruct (Hk k Hin) as [_ Hm]. intros E. by rewrite E in Hm. }
  induction Hsorted as [|k post Hsorted IH Hfirst];
    [split; [done|by intros ? ?%elem_of_nil]|].
  rewrite Forall_forall in Hfirst.
  assert (forall q, q ∈ post -> diverge q k) as Hd.
  { intros q Hq. destruct (prefix_or_diverge q k) as [H|[H|H]]; [| |done].
    - destruct (Hfirst q Hq H).
    - assert (k = q) as -> by (apply Hflat; [left|by right|done]).
      destruct (Hfirst q Hq). done. }
  destruct IH as [IHrun IHget].
  { intros q Hq. apply Hmarkers. by right. }
  { intros q q' Hq Hq'. apply Hflat; by right. }
  { intros q Hq. apply Htable. by right. }
  { intros q Hq. apply Hk. by right. }
  { intros q Hq. apply Hresolves. by right. }
  destruct (substituted_frame literal ast post k Hd) as [Hsame Hres].
  assert (resolves (substituted literal ast post) k) as Hrk
    by (apply Hres, Hresolves; left).
  split.
  - rewrite run_cons, IHrun. cbn [mbind result_bind].
    destruct (Htable k) as (translation & program & H1 & H2 & H3 & H4 & H5 & H6);
      [left|].
    cbn [substituted foldr]. fold (substituted literal ast post).
    apply (substitute_string_marker_Ok _ _ _
             (getIn_ ast (k ++ [KStr "arguments"; KIdx 0; KStr "value"]))
             translation program); try done.
    + apply substituted_collection; [done|]. intros Hin.
      destruct (Hk [] ltac:(by right)) as [Hne _]. done.
    + rewrite Hsame. apply Hmarkers. left.
    + apply substituted_frame. intros q Hq. by apply diverge_app_r, Hd.
  - intros q [->|Hq]%elem_of_cons; cbn [substituted foldr];
      fold (substituted literal ast post).
    + by apply getIn__replaceIn_same.
    + rewrite getIn__replaceIn_diverge; [by apply IHget|].
      by apply diverge_sym, Hd.
Qed.

(** ** The key of a message *)










End Translator.

(** * The examples

    The theorems at the trees of [Demo], with [Demo]'s printer and parser
    for escodegen and esprima. *)

Ltac no_duplicates := apply (bool_decide_unpack _); vm_compute; exact I.

Ltac well_formed :=
  repeat first
    [ apply wf_VUndef | apply wf_VNull | apply wf_VBool | apply wf_VNum
    | apply wf_VStr
    | apply wf_VList
    | apply wf_VMap; [no_duplicates|]
    | apply List.Forall_nil
    | apply List.Forall_cons; cbn [snd] ].


(** ** The traversal *)

Lemma allKeypathsInAst_preorder_hello :
  is_collection Demo.hello_program = true
  /\ exists keypaths,
       allKeypathsInAst Demo.hello_program = Ok keypaths
       /\ (forall p, p <> [] -> resolves Demo.hello_program p -> p ∈ keypaths)
       /\ [] ∉ keypaths.
Proof.
  split; [reflexivity|].
  destruct (allKeypathsInAst_preorder Demo.hello_program eq_refl)
    as (keypaths & H1 & H2 & H3 & _).
  by exists keypaths.
Defined.

(** The root of [i18n("Hello, world!")] is a node, and [allKeypathsInAst]
    does not return its keypath. *)
Lemma allKeypathsInAst_omits_root :
  resolves Demo.hello_program []
  /\ is_collection (getIn_ Demo.hello_program []) = true
  /\ exists keypaths,
       allKeypathsInAst Demo.hello_program = Ok keypaths /\ [] ∉ keypaths.
Proof.
  split; [exact I|]. split; [reflexivity|].
  exists (f_keypaths Demo.hello_program []). split; [reflexivity|].
  apply f_keypaths_nonempty.
Qed.

(** ** The driver *)




(** ** Messages *)

Lemma namedExpressionDefinitions_duplicates_twice :
  (exists listOfPairs,
     _namedExpressionDefinitions Demo.generate Demo.inspect Demo.twice_message
     = Ok listOfPairs
     /\ 2 <= occurrences (VStr "name") (map fst listOfPairs))
  /\ exists description,
       namedExpressionDefinitions Demo.generate Demo.inspect Demo.twice_message
       = throwInputError description
       /\ includes "name" description = true
       /\ validateMessage Demo.generate Demo.inspect Demo.twice_message
          = throwInputError description.
Proof.
  split.
  - eexists. split; [reflexivity|]. vm_compute. done.
  - destruct (namedExpressionDefinitions_duplicates Demo.generate Demo.esprima
                Demo.inspect Demo.twice_message _ eq_refl)
      as (dupes & Hdupes & Hthrow & Hincludes & Hvalidate).
    { exists (VStr "name"). vm_compute. done. }
    eexists. split; [exact Hthrow|]. split.
    + apply (Hincludes (VStr "name")). vm_compute. done.
    + apply Hvalidate. reflexivity.
Defined.


Lemma errorMessageForError_shapes_rejected :
  truthy (field Demo.rejected "isInputError") = true
  /\ truthy (field Demo.rejected "messageAst") = true
  /\ truthy (field Demo.rejected "translationString") = true
  /\ generate Demo.generate Demo.hello_call = Ok Demo.hello_src
  /\ errorMessageForError Demo.generate Demo.inspect Demo.stack
       (ThrowValue (VMap Demo.rejected))
     = Ok (VStr (newline +:+ "On line 1, when processing the message... "
                 +:+ newline +:+ newline +:+ Demo.hello_src +:+ newline +:+ newline
                 +:+ "...and its associated translation... " +:+ newline +:+ newline
                 +:+ "Bonjour" +:+ newline +:+ newline
                 +:+ "...the following error occured: " +:+ newline +:+ newline
                 +:+ "Translation includes unsafe attribute" +:+ newline)).
Proof.
  repeat (split; [reflexivity|]).
  exact (proj1 (errorMessageForError_shapes Demo.generate Demo.inspect Demo.stack)
           Demo.rejected _ _ Demo.hello_src eq_refl eq_refl eq_refl eq_refl eq_refl
           eq_refl).
Defined.

(** ** Sanitizing and reconstituting *)




Lemma link_plain_plain : plain Demo.generate Demo.link_plain.
Proof.
  eapply plain_XJSElement with (name := "a"); try reflexivity.
  - by left.
  - repeat constructor.
  - repeat constructor.
Qed.

Lemma sanitize_reconstitute_roundtrip_link :
  plain Demo.generate Demo.link_plain
  /\ (sanitized ← sanitize Demo.generate Demo.esprima Demo.inspect Demo.link_plain;
      reconstitute Demo.generate Demo.inspect sanitized Demo.link_plain)
     = Ok Demo.link_plain.
Proof.
  split; [exact link_plain_plain|].
  exact (proj1 (sanitize_reconstitute_roundtrip Demo.generate Demo.esprima
                  Demo.inspect Demo.link_plain link_plain_plain)).
Defined.

(** The message [<a:my-link href="example.fr">Example</a:my-link>] has an
    allow-listed attribute only and no expression container; [sanitize]
    leaves it as it is, and reconstituting it against itself raises an
    input error. *)
Lemma designated_message_without_hidden_attributes :
  hasUnsafeAttributes Demo.generate Demo.inspect Demo.link_translated = Ok false
  /\ getIn_ Demo.link_translated [KStr "children"]
     = VList [Demo.Text "Example" (Demo.at_ 1 29 36)]
  /\ sanitize Demo.generate Demo.esprima Demo.inspect Demo.link_translated
     = Ok Demo.link_translated
  /\ (sanitized ← sanitize Demo.generate Demo.esprima Demo.inspect
                    Demo.link_translated;
      reconstitute Demo.generate Demo.inspect sanitized Demo.link_translated)
     = throwInputError
         "Translation contains designation 'my-link', which is not in the original.".
Proof. repeat split; vm_compute; reflexivity. Qed.



(** ** Further examples *)

Lemma namedExpressionDefinitions_distinct_link :
  (exists listOfPairs,
     _namedExpressionDefinitions Demo.generate Demo.inspect Demo.link_attribute_form
     = Ok listOfPairs
     /\ NoDup (listOfPairs.*1)
     /\ namedExpressionDefinitions Demo.generate Demo.inspect
          Demo.link_attribute_form = Ok listOfPairs).
Proof.
  eexists. split; [reflexivity|].
  assert (NoDup [VStr "my-link"]) as Hnd by (apply NoDup_singleton).
  split; [exact Hnd|].
  exact (proj1 (proj1 (namedExpressionDefinitions_distinct Demo.generate Demo.inspect
                         Demo.link_attribute_form _ eq_refl) Hnd)).
Defined.

Lemma link_attributes_collections :
  Forall (fun a => is_collection a = true)
    [Demo.XJSAttribute "i18n-designation"
       (Demo.StringLiteral "my-link" (Demo.at_ 1 20 29)) (Demo.at_ 1 3 29);
     Demo.XJSAttribute "href" (Demo.StringLiteral "example.fr" (Demo.at_ 1 35 47))
       (Demo.at_ 1 30 47)].
Proof. repeat constructor. Qed.



Lemma sanitize_hides_link :
  exists sanitized,
    sanitize Demo.generate Demo.esprima Demo.inspect Demo.link_attribute_form
    = Ok sanitized
    /\ hides Demo.generate Demo.inspect sanitized.
Proof.
  eexists. split; [reflexivity|].
  exact (sanitize_hides Demo.generate Demo.esprima Demo.inspect
           Demo.link_attribute_form _ eq_refl).
Defined.

Lemma rewriteDesignationToNamespaceSyntax_attribute_link :
  componentDesignation Demo.generate Demo.link_attribute_form = Ok (VStr "my-link")
  /\ attributeWithName Demo.link_attribute_form "i18n-designation"
     = Ok (VStr "my-link")
  /\ exists r,
       rewriteDesignationToNamespaceSyntax Demo.generate Demo.inspect
         Demo.link_attribute_form = Ok r
       /\ getIn_ r [KStr "openingElement"; KStr "name"]
          = namespacedName (VStr "my-link") "a"
       /\ getIn_ r [KStr "openingElement"; KStr "attributes"]
          = VList [Demo.XJSAttribute "href"
                     (Demo.StringLiteral "example.fr" (Demo.at_ 1 35 47))
                     (Demo.at_ 1 30 47)].
Proof.
  split; [reflexivity|]. split; [reflexivity|].
  destruct (rewriteDesignationToNamespaceSyntax_attribute Demo.generate Demo.inspect
              Demo.link_attribute_form "a" (VStr "my-link") (VStr "my-link")
              (VBool false) _ eq_refl eq_refl eq_refl eq_refl eq_refl eq_refl
              link_attributes_collections eq_refl (fun _ => I))
    as (r & Hr & Hname & _ & Hattrs & _).
  exists r. split; [exact Hr|]. split; [exact Hname|exact Hattrs].
Defined.

Lemma attributeMap_attributesFromMap_href :
  NoDup [Demo.XJSIdentifier "href" (Demo.at_ 1 30 47)]
  /\ attributeMap
       (attributesFromMap
          [(Demo.XJSIdentifier "href" (Demo.at_ 1 30 47),
            Demo.StringLiteral "example.fr" (Demo.at_ 1 35 47))])
     = Ok [(Demo.XJSIdentifier "href" (Demo.at_ 1 30 47),
            Demo.StringLiteral "example.fr" (Demo.at_ 1 35 47))].
Proof.
  assert (NoDup [Demo.XJSIdentifier "href" (Demo.at_ 1 30 47)]) as Hnd
    by apply NoDup_singleton.
  split; [exact Hnd|].
  exact (proj1 (attributeMap_attributesFromMap
                  [(Demo.XJSIdentifier "href" (Demo.at_ 1 30 47),
                    Demo.StringLiteral "example.fr" (Demo.at_ 1 35 47))] Hnd)).
Defined.

Lemma keypathsForMessageNodesInAst_markers_hello_bye :
  keypathsForMessageNodesInAst Demo.generate Demo.hello_bye_program
  = Ok [[KStr "body"; KIdx 0; KStr "expression"];
        [KStr "body"; KIdx 1; KStr "expression"]]
  /\ isStringLiteral
       (getIn_ Demo.hello_bye_program
          [KStr "body"; KIdx 1; KStr "expression"; KStr "arguments"; KIdx 0])
     = true.
Proof.
  split; [reflexivity|].
  destruct (keypathsForMessageNodesInAst_markers Demo.generate Demo.inspect
              Demo.hello_bye_program _ eq_refl) as [_ H].
  destruct (H [KStr "body"; KIdx 1; KStr "expression"]) as [Hliteral _];
    [right; left|reflexivity|].
  exact Hliteral.
Defined.



Lemma substitute_string_marker_hello :
  Cases.french !! "Hello, world!" = Some "Bonjour, monde!"
  /\ Cases.esprima (Demo.stringify "Bonjour, monde!") = Ok Cases.bonjour_program
  /\ substitute Demo.generate Cases.esprima Demo.stringify Demo.inspect Demo.String_inherited
       Cases.french Demo.hello_program [KStr "body"; KIdx 0; KStr "expression"]
     = Ok (replaceIn Demo.hello_program [KStr "body"; KIdx 0; KStr "expression"]
             Cases.bonjour_literal).
Proof.
  split; [reflexivity|]. split; [reflexivity|].
  refine (proj1 (substitute_string_marker Demo.generate Cases.esprima
                   Demo.stringify Demo.inspect Demo.String_inherited Cases.french Demo.hello_program
                   [KStr "body"; KIdx 0; KStr "expression"]
                   (VStr "Hello, world!") "Bonjour, monde!"
                   Cases.bonjour_program Cases.bonjour_literal
                   eq_refl I eq_refl eq_refl eq_refl _ eq_refl eq_refl eq_refl
                   eq_refl)).
  discriminate.
Defined.

Lemma substitute_error_carries_message_bye :
  exists e,
    substitute Demo.generate Demo.esprima Demo.stringify Demo.inspect Demo.String_inherited ∅
      Demo.hello_bye_program [KStr "body"; KIdx 1; KStr "expression"]
    = Throw (ThrowValue e)
    /\ isMap e = true
    /\ exists m, e = VMap m /\ field m "messageAst" = Demo.bye_call.
Proof.
  exists (coll_set (coll_set (InputError ("Translation missing for:" +:+ newline +:+ "Bye"))
                       (KStr "messageAst") Demo.bye_call)
              (KStr "translationString") VUndef).
  assert (substitute Demo.generate Demo.esprima Demo.stringify Demo.inspect Demo.String_inherited ∅
            Demo.hello_bye_program [KStr "body"; KIdx 1; KStr "expression"]
          = Throw (ThrowValue
                     (coll_set (coll_set (InputError ("Translation missing for:" +:+ newline +:+ "Bye"))
                                (KStr "messageAst") Demo.bye_call)
                       (KStr "translationString") VUndef))) as Hthrown
    by reflexivity.
  split; [exact Hthrown|]. split; [reflexivity|].
  destruct (substitute_error_carries_message Demo.generate Demo.esprima
              Demo.stringify Demo.inspect Demo.String_inherited ∅ Demo.hello_bye_program
              [KStr "body"; KIdx 1; KStr "expression"] _ Hthrown eq_refl)
    as (m & Hm & Hmessage & _).
  exists m. split; [exact Hm|exact Hmessage].
Defined.

Lemma substitute_error_report_bye :
  exists e,
    substitute Demo.generate Demo.esprima Demo.stringify Demo.inspect Demo.String_inherited ∅
      Demo.hello_bye_program [KStr "body"; KIdx 1; KStr "expression"]
    = Throw (ThrowValue e)
    /\ isInputError (ThrowValue e) = true
    /\ generate Demo.generate Demo.bye_call = Ok ("i18n(" +:+ Demo.quoted "Bye" +:+ ")")
    /\ exists text,
         errorMessageForError Demo.generate Demo.inspect Demo.stack (ThrowValue e)
         = Ok (VStr text)
         /\ includes "On line 2" text = true.
Proof.
  exists (coll_set (coll_set (InputError ("Translation missing for:" +:+ newline +:+ "Bye"))
                       (KStr "messageAst") Demo.bye_call)
              (KStr "translationString") VUndef).
  assert (substitute Demo.generate Demo.esprima Demo.stringify Demo.inspect Demo.String_inherited ∅
            Demo.hello_bye_program [KStr "body"; KIdx 1; KStr "expression"]
          = Throw (ThrowValue
                     (coll_set (coll_set (InputError ("Translation missing for:" +:+ newline +:+ "Bye"))
                                (KStr "messageAst") Demo.bye_call)
                       (KStr "translationString") VUndef))) as Hthrown
    by reflexivity.
  assert (generate Demo.generate Demo.bye_call
          = Ok ("i18n(" +:+ Demo.quoted "Bye" +:+ ")")) as Hprinted by reflexivity.
  split; [exact Hthrown|]. split; [reflexivity|]. split; [exact Hprinted|].
  destruct (substitute_error_report Demo.generate Demo.esprima Demo.stringify
              Demo.inspect Demo.stack Demo.String_inherited ∅ Demo.hello_bye_program
              [KStr "body"; KIdx 1; KStr "expression"] _
              ("i18n(" +:+ Demo.quoted "Bye" +:+ ")") Hthrown eq_refl Hprinted)
    as (text & Htext & Hline & _).
  exists text. split; [exact Htext|exact Hline].
Defined.

Lemma translateMessagesInAst_frame_hello :
  keypathsForMessageNodesInAst Demo.generate Demo.hello_program
  = Ok [[KStr "body"; KIdx 0; KStr "expression"]]
  /\ exists translatedAst,
       translateMessagesInAst Demo.generate Cases.esprima Demo.stringify
         Demo.inspect Demo.String_inherited Demo.hello_program Cases.french = Ok translatedAst
       /\ getIn_ translatedAst [KStr "body"; KIdx 0; KStr "type"]
          = VStr "ExpressionStatement".
Proof.
  split; [reflexivity|]. eexists. split; [reflexivity|].
  destruct (translateMessagesInAst_frame Demo.generate Cases.esprima Demo.stringify
              Demo.inspect Demo.String_inherited Demo.hello_program Cases.french _ _ eq_refl eq_refl)
    as [Hframe _].
  rewrite (Hframe [KStr "body"; KIdx 0; KStr "type"]); [reflexivity|].
  intros keypath ->%list_elem_of_singleton.
  apply divergeb_diverge. reflexivity.
Defined.


Lemma validateMessage_nested_markers_twice :
  isElementMarker Cases.nested_markers = true
  /\ namedExpressionDefinitions Demo.generate Demo.inspect Cases.nested_markers
     = Ok []
  /\ hasUnsafeAttributes Demo.generate Demo.inspect Cases.nested_markers = Ok false
  /\ validateMessage Demo.generate Demo.inspect Cases.nested_markers
     = throwInputError
         "Don't directly nest <I18N> tags: <I18N><I18N>Hi</I18N></I18N>".
Proof.
  repeat (split; [reflexivity|]).
  exact (validateMessage_nested_markers Demo.generate Demo.inspect
           Cases.nested_markers [] _ "<I18N><I18N>Hi</I18N></I18N>"
           eq_refl eq_refl eq_refl eq_refl eq_refl eq_refl).
Defined.


Lemma hello_program_wf : wf_value Demo.hello_program.
Proof. unfold Demo.hello_program. well_formed. Qed.

Lemma translateMessagesInAst_string_markers_hello :
  wf_value Demo.hello_program
  /\ keypathsForMessageNodesInAst Demo.generate Demo.hello_program
     = Ok [[KStr "body"; KIdx 0; KStr "expression"]]
  /\ Cases.french !! "Hello, world!" = Some "Bonjour, monde!"
  /\ Cases.esprima (Demo.stringify "Bonjour, monde!") = Ok Cases.bonjour_program
  /\ translateMessagesInAst Demo.generate Cases.esprima Demo.stringify Demo.inspect Demo.String_inherited
       Demo.hello_program Cases.french
     = Ok (replaceIn Demo.hello_program [KStr "body"; KIdx 0; KStr "expression"]
             Cases.bonjour_literal).
Proof.
  split; [exact hello_program_wf|]. repeat (split; [reflexivity|]).
  refine (proj1 (translateMessagesInAst_string_markers Demo.generate Cases.esprima
                   Demo.stringify Demo.inspect Demo.String_inherited Demo.hello_program Cases.french
                   [[KStr "body"; KIdx 0; KStr "expression"]]
                   (fun _ => Cases.bonjour_literal)
                   hello_program_wf eq_refl _ _ _)).
  - repeat constructor.
  - intros k k' ->%list_elem_of_singleton ->%list_elem_of_singleton _. reflexivity.
  - intros k ->%list_elem_of_singleton.
    exists "Bonjour, monde!", Cases.bonjour_program.
    split; [reflexivity|]. split; [discriminate|]. repeat split.
Defined.
